(** * Sparse matrix (main.py): functional model and verification

    The development follows [src/sparse_matrix/code/src/main.py].

    - Part 1 models the Python built-ins the class relies on ([str.strip],
      [str.split], [int], [str], text-mode line iteration, ...).
    - Part 2 is the value-level model of the class [SparseMatrix]: the
      dictionary [data] is a finite map from coordinates to integers, a
      raised exception is the left injection of a sum.
    - Part 3 ([Module Ref]) is the reference-level model of the arithmetic
      operations: instances and dictionaries live in a store, so that
      mutation and sharing can be stated. It refines Part 2.
    - Part 3b models [save_to_file], [print_matrix] and [main], with the
      files, the platform and the console they act on.
    - Part 4 holds the lemmas and the theorems on the core of the class.
    - Part 5 holds further properties: the algebra of the operations, the
      loader, saving and the command-line program.

    Modelling choices:
    - Python integers are [Z]. CPython's configurable limit on the number
      of digits that [int] and [str] convert is not modelled.
    - A character is a code point in 0..255; among these, the whitespace
      of [str.strip] is 9..13, 28..32, 0x85 and 0xA0, [int] ignores the
      same around a literal except 28..31, and the decimal digits are
      [0]..[9].
    - The text of a file is what decoding gives; a file that cannot be
      opened or read is absent from the file system.
    - A dictionary is a finite map, which forgets the insertion order. The
      loops over [dict.items()] are shown not to depend on the order
      ([update_loop_order], [outer_loop_order]), and [to_string] sorts. *)

From Stdlib Require Import ZArith Ascii String DecimalString DecimalPos.
From stdpp Require Import gmap list sorting.

Local Open Scope Z_scope.

(* ===================================================================== *)
(** * Part 1: Python built-ins *)
(* ===================================================================== *)

(** A Python [str] is a list of characters. *)
Abbreviation str := (list ascii).

(** String literals of the source. *)
Definition lit (s : string) : str := list_ascii_of_string s.

Definition LF : ascii := ascii_of_N 10.
Definition CR : ascii := ascii_of_N 13.

(** [str.isspace] on one character: TAB, LF, VT, FF, CR, the separators
    0x1C..0x1F, SPACE, NEL (0x85) and NBSP (0xA0). *)
Definition isspace (c : ascii) : bool :=
  let n := N_of_ascii c in
  ((9 <=? n) && (n <=? 13) || (28 <=? n) && (n <=? 32)
   || (n =? 133) || (n =? 160))%N.

(** [s.lstrip()], [s.rstrip()], [s.strip()]. *)
Fixpoint lstrip (s : str) : str :=
  match s with
  | [] => []
  | c :: s' => if isspace c then lstrip s' else s
  end.

Definition rstrip (s : str) : str := reverse (lstrip (reverse s)).

Definition strip (s : str) : str := rstrip (lstrip s).

(** [s.startswith(prefix)] and [s.endswith(suffix)]. *)
Fixpoint startswith (s prefix : str) {struct prefix} : bool :=
  match prefix, s with
  | [], _ => true
  | _ :: _, [] => false
  | p :: prefix', c :: s' => Ascii.eqb c p && startswith s' prefix'
  end.

Definition endswith (s suffix : str) : bool :=
  startswith (reverse s) (reverse suffix).

(** [s.split(sep)] for a one-character separator: the list of the fields
    between the occurrences of [sep]; never empty. *)
Fixpoint split (sep : ascii) (s : str) : list str :=
  match s with
  | [] => [[]]
  | c :: s' =>
      if Ascii.eqb c sep then [] :: split sep s'
      else match split sep s' with
           | f :: fs => (c :: f) :: fs
           | [] => [[c]]
           end
  end.

(** [s[1:-1]]: the characters from index 1 up to, excluding, the last. *)
Definition slice_1_m1 (s : str) : str := take (length s - 2)%nat (drop 1 s).

(** [sep.join(l)]. *)
Fixpoint join (sep : str) (l : list str) : str :=
  match l with
  | [] => []
  | [x] => x
  | x :: l' => x ++ sep ++ join sep l'
  end.

(** Iterating over a file opened in text mode: the text is cut after every
    line ending; the endings CR LF and CR are read as LF (universal
    newlines); a last line without an ending is kept as it is. *)
Fixpoint readlines (s : str) : list str :=
  match s with
  | [] => []
  | c :: s' =>
      if Ascii.eqb c CR then
        match s' with
        | c' :: s'' =>
            if Ascii.eqb c' LF then [LF] :: readlines s''
            else [LF] :: readlines s'
        | [] => [[LF]]
        end
      else if Ascii.eqb c LF then [LF] :: readlines s'
      else match readlines s' with
           | l :: ls => (c :: l) :: ls
           | [] => [[c]]
           end
  end.

(** A string that neither starts nor ends with whitespace. *)
Definition trimmed (s : str) : Prop :=
  match s with [] => True | c :: _ => isspace c = false end
  ∧ match reverse s with [] => True | c :: _ => isspace c = false end.

(** A line as [to_string] writes them: not empty, trimmed, without a line
    ending inside. *)
Definition clean_line (s : str) : Prop :=
  s ≠ [] ∧ trimmed s ∧ Forall (λ c, c ≠ LF ∧ c ≠ CR) s.

(** The value of a decimal digit. *)
Definition digit_of (c : ascii) : option Z :=
  let n := N_of_ascii c in
  if ((48 <=? n) && (n <=? 57))%N then Some (Z.of_N n - 48) else None.

(** The digits of an integer literal: at least one digit, single
    underscores allowed between two digits. [prev] tells whether the
    previous character was a digit. *)
Fixpoint int_digits (acc : Z) (prev : bool) (s : str) : option Z :=
  match s with
  | [] => if prev then Some acc else None
  | c :: s' =>
      match digit_of c with
      | Some d => int_digits (10 * acc + d) true s'
      | None =>
          if Ascii.eqb c "_" && prev then int_digits acc false s' else None
      end
  end.

(** The whitespace that [int] ignores around a literal: that of
    [str.strip] without the separators 0x1C..0x1F, which [int] refuses. *)
Definition isspace_int (c : ascii) : bool :=
  let n := N_of_ascii c in
  ((9 <=? n) && (n <=? 13) || (n =? 32) || (n =? 133) || (n =? 160))%N.

Fixpoint lstrip_int (s : str) : str :=
  match s with
  | [] => []
  | c :: s' => if isspace_int c then lstrip_int s' else s
  end.

Definition strip_int (s : str) : str :=
  reverse (lstrip_int (reverse (lstrip_int s))).

(** [int(s)] in base 10: surrounding whitespace is ignored, then an
    optional sign, then the digits. [None] stands for the [ValueError]
    that [int] raises. *)
Definition py_int (s : str) : option Z :=
  match strip_int s with
  | c :: r =>
      if Ascii.eqb c "-" then Z.opp <$> int_digits 0 false r
      else if Ascii.eqb c "+" then int_digits 0 false r
      else int_digits 0 false (c :: r)
  | [] => None
  end.

(** [str(n)], which is also what [f"{n}"] produces for an integer. *)
Definition py_str (n : Z) : str :=
  list_ascii_of_string (NilEmpty.string_of_int (Z.to_int n)).

(** The decimal digits of an unsigned number, and the characters [str]
    writes: digits and the minus sign. *)
Definition digits_of (u : Decimal.uint) : str :=
  list_ascii_of_string (NilEmpty.string_of_uint u).

Definition int_char (c : ascii) : bool :=
  match digit_of c with Some _ => true | None => Ascii.eqb c "-" end.

(** [range(n)] as the list it iterates over. *)
Definition range (n : Z) : list Z := seqZ 0 n.

(** ** Exceptions *)

Inductive exn : Type :=
  | ValueError (msg : string)
  | IndexError
  | OSError.

(** A computation that returns a value or raises. *)
Definition result (A : Type) : Type := exn + A.

Definition raise {A} (e : exn) : result A := inl e.

#[global] Instance result_ret : MRet result := λ A a, inr a.

#[global] Instance result_bind : MBind result := λ A B f x,
  match x with
  | inl e => inl e
  | inr a => f a
  end.

(** A [for] loop whose body may raise: the state is threaded through the
    iterations and the first exception ends the loop. *)
Fixpoint for_loop {S A} (body : S → A → result S) (s : S) (l : list A)
  : result S :=
  match l with
  | [] => mret s
  | x :: l' => s' ← body s x; for_loop body s' l'
  end.

(** The two error kinds of the specification, told apart by the message
    of the [ValueError]. *)
Definition InvalidFormat (e : exn) : Prop :=
  e = ValueError "Input file has wrong format".

Definition DimensionMismatch (e : exn) : Prop :=
  e = ValueError "Matrix dimensions must match for addition"
  ∨ e = ValueError "Matrix dimensions must match for subtraction"
  ∨ e = ValueError "Matrix dimensions do not allow multiplication".

(** [l[i]] raises [IndexError] out of range; [int(s)] raises [ValueError]
    on a malformed literal. *)
Definition index {A} (l : list A) (i : nat) : result A :=
  match l !! i with
  | Some x => mret x
  | None => raise IndexError
  end.

Definition int (s : str) : result Z :=
  match py_int s with
  | Some n => mret n
  | None => raise (ValueError "invalid literal for int() with base 10")
  end.

(** The files that can be opened for reading, with their text; [open]
    raises [OSError] for any other path (missing or unreadable file). *)
Definition filesystem : Type := str → option str.

Definition open (fs : filesystem) (file_path : str) : result str :=
  match fs file_path with
  | Some text => mret text
  | None => raise OSError
  end.

(* ===================================================================== *)
(** * Part 2: the class [SparseMatrix], value-level model *)
(* ===================================================================== *)

(** The attributes of an instance. [data] is the dictionary
    [{(row, col): value}]. *)
Record SparseMatrix : Type := mkSparseMatrix {
  rows : Z;
  cols : Z;
  data : gmap (Z * Z) Z
}.

(** Attribute assignments [self.rows = n], [self.cols = n],
    [self.data = d]. *)
Definition set_rows (n : Z) (self : SparseMatrix) : SparseMatrix :=
  {| rows := n; cols := cols self; data := data self |}.

Definition set_cols (n : Z) (self : SparseMatrix) : SparseMatrix :=
  {| rows := rows self; cols := n; data := data self |}.

Definition set_data (d : gmap (Z * Z) Z) (self : SparseMatrix) : SparseMatrix :=
  {| rows := rows self; cols := cols self; data := d |}.

(** The body of the [for line in file] loop of [load_from_file]. *)
Definition load_line (self : SparseMatrix) (line : str) : result SparseMatrix :=
  let line := strip line in
  if bool_decide (line = []) then mret self
  else if startswith line (lit "rows=") then
    field ← index (split "=" line) 1;
    n ← int (strip field);
    mret (set_rows n self)
  else if startswith line (lit "cols=") then
    field ← index (split "=" line) 1;
    n ← int (strip field);
    mret (set_cols n self)
  else if startswith line (lit "(") && endswith line (lit ")") then
    let parts := split "," (slice_1_m1 line) in
    if bool_decide (length parts ≠ 3%nat) then
      raise (ValueError "Invalid entry format")
    else
      p0 ← index parts 0; row ← int (strip p0);
      p1 ← index parts 1; col ← int (strip p1);
      p2 ← index parts 2; val ← int (strip p2);
      mret (set_data (<[(row, col) := val]> (data self)) self)
  else raise (ValueError "Input file has wrong format").

(** [load_from_file]: every exception raised while opening, reading or
    parsing is replaced by the one [ValueError] of the handler. *)
Definition load_from_file (fs : filesystem) (self : SparseMatrix)
    (file_path : str) : result SparseMatrix :=
  match text ← open fs file_path; for_loop load_line self (readlines text) with
  | inl _ => raise (ValueError "Input file has wrong format")
  | inr self' => mret self'
  end.

(** The constructor. [file_path] is [None] or a string; the empty string
    is falsy, like [None]. *)
Definition __init__ (fs : filesystem) (file_path : option str) (rows cols : Z)
  : result SparseMatrix :=
  let self := mkSparseMatrix rows cols ∅ in
  match file_path with
  | Some (c :: p) => load_from_file fs self (c :: p)
  | Some [] | None => mret self
  end.

Definition get_element (self : SparseMatrix) (row col : Z) : Z :=
  default 0 (data self !! (row, col)).

Definition set_element (self : SparseMatrix) (row col value : Z) : SparseMatrix :=
  if decide (value ≠ 0) then set_data (<[(row, col) := value]> (data self)) self
  else if decide ((row, col) ∈ dom (data self)) then
    set_data (delete (row, col) (data self)) self
  else self.

Definition add (self other : SparseMatrix) : result SparseMatrix :=
  if decide (rows self ≠ rows other ∨ cols self ≠ cols other) then
    raise (ValueError "Matrix dimensions must match for addition")
  else
    let result := mkSparseMatrix (rows self) (cols self) (data self) in
    mret (foldl (λ result '((row, col), val),
                   set_element result row col (get_element result row col + val))
                result (map_to_list (data other))).

Definition subtract (self other : SparseMatrix) : result SparseMatrix :=
  if decide (rows self ≠ rows other ∨ cols self ≠ cols other) then
    raise (ValueError "Matrix dimensions must match for subtraction")
  else
    let result := mkSparseMatrix (rows self) (cols self) (data self) in
    mret (foldl (λ result '((row, col), val),
                   set_element result row col (get_element result row col - val))
                result (map_to_list (data other))).

Definition multiply (self other : SparseMatrix) : result SparseMatrix :=
  if decide (cols self ≠ rows other) then
    raise (ValueError "Matrix dimensions do not allow multiplication")
  else
    let result := mkSparseMatrix (rows self) (cols other) ∅ in
    mret (foldl (λ result '((r1, c1), v1),
                   foldl (λ result c2,
                            let v2 := get_element other c1 c2 in
                            if decide (v2 ≠ 0) then
                              let current_val := get_element result r1 c2 in
                              set_element result r1 c2 (current_val + v1 * v2)
                            else result)
                         result (range (cols other)))
                result (map_to_list (data self))).

(** The order of Python tuples [((row, col), val)]: lexicographic. *)
Definition item_le (x y : Z * Z * Z) : Prop :=
  x.1.1 < y.1.1
  ∨ (x.1.1 = y.1.1 ∧ (x.1.2 < y.1.2 ∨ (x.1.2 = y.1.2 ∧ x.2 ≤ y.2))).

#[global] Instance item_le_dec : RelDecision item_le.
Proof. intros x y. unfold item_le. apply _. Defined.

(** [sorted(l)] on such tuples. *)
Definition sorted (l : list (Z * Z * Z)) : list (Z * Z * Z) :=
  merge_sort item_le l.

(** The line [f"({row}, {col}, {val})"]. *)
Definition entry_line (x : Z * Z * Z) : str :=
  let '((row, col), val) := x in
  lit "(" ++ py_str row ++ lit ", " ++ py_str col ++ lit ", " ++ py_str val
  ++ lit ")".

Definition to_string (self : SparseMatrix) : str :=
  let lines := [lit "rows=" ++ py_str (rows self);
                lit "cols=" ++ py_str (cols self)] in
  let lines :=
    foldl (λ lines x, lines ++ [entry_line x]) lines
          (sorted (map_to_list (data self))) in
  join [LF] lines.

(** The order of the keys [(row, col)]: row first, then column. *)
Definition key_lt (x y : Z * Z * Z) : Prop :=
  x.1.1 < y.1.1 ∨ (x.1.1 = y.1.1 ∧ x.1.2 < y.1.2).

(** The fields of an entry line: the line is enclosed in parentheses and
    what is between them splits on commas into exactly three integers. *)
Definition entry_fields (line : str) : option (Z * Z * Z) :=
  if startswith line (lit "(") && endswith line (lit ")") then
    match split "," (slice_1_m1 line) with
    | [f0; f1; f2] =>
        row ← py_int (strip f0);
        col ← py_int (strip f1);
        val ← py_int (strip f2);
        Some (row, col, val)
    | _ => None
    end
  else None.

(** The grammar of the specification: a line is [rows=<integer>],
    [cols=<integer>] or an entry line of three integer fields. This
    definition follows the specification, not [load_line]. *)
Definition spec_line_shape (line : str) : bool :=
  startswith line (lit "rows=") && bool_decide (is_Some (py_int (drop 5 line)))
  || startswith line (lit "cols=") && bool_decide (is_Some (py_int (drop 5 line)))
  || bool_decide (is_Some (entry_fields line)).

(** The invariants of the data model. *)
Definition no_zero_entries (m : SparseMatrix) : Prop :=
  ∀ k v, data m !! k = Some v → v ≠ 0.

#[global] Instance no_zero_entries_dec m : Decision (no_zero_entries m) :=
  map_Forall_dec (λ _ v, v ≠ 0) (data m).

Definition keys_in_bounds (m : SparseMatrix) : Prop :=
  ∀ r c v, data m !! (r, c) = Some v → 0 ≤ r < rows m ∧ 0 ≤ c < cols m.

(** The non-zero entries of a matrix, as a mapping. *)
Definition nonzero_entries (m : SparseMatrix) : gmap (Z * Z) Z :=
  filter (λ kv, kv.2 ≠ 0) (data m).

(** The dense reference product: entry [(r, c)] of [a * b]. *)
Definition sumZ (l : list Z) : Z := foldr Z.add 0 l.

Definition dense_product (a b : SparseMatrix) (r c : Z) : Z :=
  sumZ ((λ k, get_element a r k * get_element b k c) <$> range (cols a)).

(** A file without dimension lines, described as a text: each line is
    blank, or is an entry line [(row, col, val)] between optional
    padding. Padding is made of whitespace other than line endings: TAB,
    VT, FF, 0x1C..0x1F, SPACE, 0x85 and 0xA0. *)
Inductive entry_file_line : Type :=
  | BlankLine (padding : str)
  | EntryLine (before : str) (entry : Z * Z * Z) (after : str).

Definition padding_char (c : ascii) : bool :=
  let n := N_of_ascii c in
  ((n =? 9) || (n =? 11) || (n =? 12) || (28 <=? n) && (n <=? 32)
   || (n =? 133) || (n =? 160))%N.

Definition line_padding (l : entry_file_line) : str :=
  match l with
  | BlankLine padding => padding
  | EntryLine before _ after => before ++ after
  end.

Definition line_entry (l : entry_file_line) : option (Z * Z * Z) :=
  match l with
  | BlankLine _ => None
  | EntryLine _ entry _ => Some entry
  end.

Definition render_line (l : entry_file_line) : str :=
  match l with
  | BlankLine padding => padding
  | EntryLine before (row, col, val) after =>
      before
      ++ (lit "(" ++ py_str row ++ lit ", " ++ py_str col ++ lit ", "
          ++ py_str val ++ lit ")")
      ++ after
  end.

(** The identity matrix of size [n], built as a caller would:
    [set_element(i, i, 1)] for [i] in [range(n)] on an empty matrix. *)
Definition identity (n : Z) : SparseMatrix :=
  foldl (λ m i, set_element m i i 1) (mkSparseMatrix n n ∅) (range n).

(** The entries that the entry lines of a text give, in the order of the
    lines. *)
Definition file_entries (text : str) : list (Z * Z * Z) :=
  omap (λ line, entry_fields (strip line)) (readlines text).

(** Writing to a file opened in text mode: every LF is written as the line
    separator of the platform ([os.linesep]: LF, or CR LF on Windows). *)
Definition write_text (linesep : str) (s : str) : str :=
  c ← s; if Ascii.eqb c LF then linesep else [c].

(* ===================================================================== *)
(** * Part 3: the arithmetic operations on a store of objects *)
(* ===================================================================== *)

(** Instances and dictionaries are mutable objects reached through
    references. This model keeps them in a store, so that sharing and
    mutation are visible: an instance holds the reference of its
    dictionary, [dict.copy()] and [{}] allocate, [set_element] updates the
    dictionary in place. *)
Module Ref.

Definition loc : Type := positive.

Record object : Type := Obj {
  obj_rows : Z;
  obj_cols : Z;
  obj_data : loc
}.

Record store : Type := Store {
  objects : gmap loc object;
  dicts : gmap loc (gmap (Z * Z) Z)
}.

(** A call returns, raises, or is stuck on a reference that names no
    object (which no Python program can build). *)
Inductive outcome (A : Type) : Type :=
  | Return (a : A)
  | Raise (e : exn)
  | Stuck.
Arguments Return {A} a.
Arguments Raise {A} e.
Arguments Stuck {A}.

Definition M (A : Type) : Type := store → store * outcome A.

#[global] Instance M_ret : MRet M := λ A a σ, (σ, Return a).

#[global] Instance M_bind : MBind M := λ A B f x σ,
  match x σ with
  | (σ', Return a) => f a σ'
  | (σ', Raise e) => (σ', Raise e)
  | (σ', Stuck) => (σ', Stuck)
  end.

Definition throw {A} (e : exn) : M A := λ σ, (σ, Raise e).

Definition new_dict (d : gmap (Z * Z) Z) : M loc := λ σ,
  let l := fresh (dom (dicts σ)) in
  (Store (objects σ) (<[l := d]> (dicts σ)), Return l).

Definition new_object (o : object) : M loc := λ σ,
  let l := fresh (dom (objects σ)) in
  (Store (<[l := o]> (objects σ)) (dicts σ), Return l).

Definition read_object (l : loc) : M object := λ σ,
  match objects σ !! l with
  | Some o => (σ, Return o)
  | None => (σ, Stuck)
  end.

Definition write_object (l : loc) (o : object) : M unit := λ σ,
  match objects σ !! l with
  | Some _ => (Store (<[l := o]> (objects σ)) (dicts σ), Return ())
  | None => (σ, Stuck)
  end.

Definition read_dict (l : loc) : M (gmap (Z * Z) Z) := λ σ,
  match dicts σ !! l with
  | Some d => (σ, Return d)
  | None => (σ, Stuck)
  end.

Definition write_dict (l : loc) (d : gmap (Z * Z) Z) : M unit := λ σ,
  match dicts σ !! l with
  | Some _ => (Store (objects σ) (<[l := d]> (dicts σ)), Return ())
  | None => (σ, Stuck)
  end.

(** A [for] loop over a list of items. *)
Fixpoint for_each {A} (l : list A) (body : A → M unit) : M unit :=
  match l with
  | [] => mret ()
  | x :: l' => body x;; for_each l' body
  end.

(** [SparseMatrix(rows=..., cols=...)]: no file path, so the constructor
    only sets the three attributes, [data] to a new empty dictionary. *)
Definition __init__ (rows cols : Z) : M loc :=
  d ← new_dict ∅;
  new_object (Obj rows cols d).

Definition get_element (self : loc) (row col : Z) : M Z :=
  o ← read_object self;
  d ← read_dict (obj_data o);
  mret (default 0 (d !! (row, col))).

Definition set_element (self : loc) (row col value : Z) : M unit :=
  o ← read_object self;
  d ← read_dict (obj_data o);
  if decide (value ≠ 0) then write_dict (obj_data o) (<[(row, col) := value]> d)
  else if decide ((row, col) ∈ dom d) then
    write_dict (obj_data o) (delete (row, col) d)
  else mret ().

(** [obj.data.items()], in the order the loops go through them. *)
Definition items (obj : loc) : M (list (Z * Z * Z)) :=
  o ← read_object obj;
  d ← read_dict (obj_data o);
  mret (map_to_list d).

(** [result.data = self.data.copy()]. *)
Definition copy_data (result self : loc) : M unit :=
  s ← read_object self;
  d ← read_dict (obj_data s);
  d' ← new_dict d;
  r ← read_object result;
  write_object result (Obj (obj_rows r) (obj_cols r) d').

Definition add (self other : loc) : M loc :=
  s ← read_object self;
  o ← read_object other;
  if decide (obj_rows s ≠ obj_rows o ∨ obj_cols s ≠ obj_cols o) then
    throw (ValueError "Matrix dimensions must match for addition")
  else
    result ← __init__ (obj_rows s) (obj_cols s);
    copy_data result self;;
    its ← items other;
    for_each its (λ '((row, col), val),
      cur ← get_element result row col;
      set_element result row col (cur + val));;
    mret result.

Definition subtract (self other : loc) : M loc :=
  s ← read_object self;
  o ← read_object other;
  if decide (obj_rows s ≠ obj_rows o ∨ obj_cols s ≠ obj_cols o) then
    throw (ValueError "Matrix dimensions must match for subtraction")
  else
    result ← __init__ (obj_rows s) (obj_cols s);
    copy_data result self;;
    its ← items other;
    for_each its (λ '((row, col), val),
      cur ← get_element result row col;
      set_element result row col (cur - val));;
    mret result.

Definition multiply (self other : loc) : M loc :=
  s ← read_object self;
  o ← read_object other;
  if decide (obj_cols s ≠ obj_rows o) then
    throw (ValueError "Matrix dimensions do not allow multiplication")
  else
    result ← __init__ (obj_rows s) (obj_cols o);
    its ← items self;
    for_each its (λ '((r1, c1), v1),
      o ← read_object other;
      for_each (range (obj_cols o)) (λ c2,
        v2 ← get_element other c1 c2;
        if decide (v2 ≠ 0) then
          current_val ← get_element result r1 c2;
          set_element result r1 c2 (current_val + v1 * v2)
        else mret ()));;
    mret result.

(** The matrix value an instance stands for in a store. *)
Definition value_of (σ : store) (l : loc) : option SparseMatrix :=
  o ← objects σ !! l;
  d ← dicts σ !! obj_data o;
  Some (mkSparseMatrix (obj_rows o) (obj_cols o) d).

End Ref.

(* ===================================================================== *)
(** * Part 3b: saving, printing and the command-line program *)
(* ===================================================================== *)

#[global] Instance char_eq_dec : EqDecision ascii := Ascii.ascii_dec.

(** What [open(path, 'w')] raises when the operating system refuses:
    [FileNotFoundError], or another [OSError], with the text that [str]
    gives for it. *)
Inductive os_error : Type :=
  | FileNotFoundError
  | OtherOSError (message : str).

(** The platform: its line separator and, for each path, the error that
    opening it for writing raises, if any. A path names one file. A file
    that is opened for writing is written completely. *)
Record platform : Type := Platform {
  linesep : str;
  open_w : str → option os_error
}.

(** [save_to_file]: the text of [to_string] replaces what the file held;
    an error of [open] is not caught. *)
Definition save_to_file (pf : platform) (fs : filesystem) (self : SparseMatrix)
    (file_path : str) : os_error + filesystem :=
  match open_w pf file_path with
  | Some e => inl e
  | None =>
      inr (λ p, if bool_decide (p = file_path)
                then Some (write_text (linesep pf) (to_string self))
                else fs p)
  end.

(** Standard output is the sequence of the code points written to it;
    [print(text)] writes the text and a line feed. *)
Definition console : Type := list N.

Definition uni (s : str) : console := N_of_ascii <$> s.

Definition print (text : console) : console := text ++ [10%N].

Definition print_matrix (self : SparseMatrix) : console :=
  print (uni (to_string self)).

(** The two symbols of the messages, U+274C and U+2705. *)
Definition cross_mark : console := [10060%N].
Definition check_mark : console := [9989%N].

Definition matrix1_path : str := lit "../../sample_inputs/easy_sample_02_1.txt".
Definition matrix2_path : str := lit "../../sample_inputs/easy_sample_02_2.txt".

(** The five [print] calls that open [main], and the prompt of [input]. *)
Definition menu : console :=
  print (uni (lit "Sparse Matrix Operations"))
  ++ print (uni (lit "========================"))
  ++ print (uni (lit "1. Add matrices"))
  ++ print (uni (lit "2. Subtract matrices"))
  ++ print (uni (lit "3. Multiply matrices"))
  ++ uni (lit "Enter your choice (1/2/3): ").

(** [str(e)]. *)
Definition str_exn (e : exn) : str :=
  match e with
  | ValueError msg => lit msg
  | IndexError => lit "list index out of range"
  | OSError => []
  end.

(** The body of the [try] of [main]: what it prints, the files it leaves,
    and the exception that ends it, if any. *)
Definition main_try (pf : platform) (fs : filesystem) (choice : str)
  : console * filesystem * option (exn + os_error) :=
  match __init__ fs (Some matrix1_path) 0 0 with
  | inl e => ([], fs, Some (inl e))
  | inr matrix1 =>
      match __init__ fs (Some matrix2_path) 0 0 with
      | inl e => ([], fs, Some (inl e))
      | inr matrix2 =>
          let selected :=
            if bool_decide (choice = lit "1") then
              Some (add matrix1 matrix2, LF :: lit "Result of Addition:")
            else if bool_decide (choice = lit "2") then
              Some (subtract matrix1 matrix2, LF :: lit "Result of Subtraction:")
            else if bool_decide (choice = lit "3") then
              Some (multiply matrix1 matrix2, LF :: lit "Result of Multiplication:")
            else None in
          match selected with
          | None =>
              (print (uni (lit "Invalid choice. Please enter 1, 2, or 3.")),
               fs, None)
          | Some (inl e, _) => ([], fs, Some (inl e))
          | Some (inr result, heading) =>
              let out := print (uni heading) ++ print_matrix result in
              match save_to_file pf fs result (lit "result.txt") with
              | inl e => (out, fs, Some (inr e))
              | inr fs' =>
                  (out ++ print ([10%N] ++ check_mark
                                 ++ uni (lit " Result written to 'result.txt'")),
                   fs', None)
              end
          end
      end
  end.

(** The three handlers of [main], in their order: [ValueError],
    [FileNotFoundError], [Exception]. *)
Definition main_except (raised : exn + os_error) : console :=
  match raised with
  | inl (ValueError msg) =>
      print (cross_mark ++ uni (lit " Error: ") ++ uni (lit msg))
  | inr FileNotFoundError =>
      print (cross_mark ++ uni (lit " One of the input files was not found."))
  | inr (OtherOSError message) =>
      print (cross_mark ++ uni (lit " An unexpected error occurred: ")
             ++ uni message)
  | inl e =>
      print (cross_mark ++ uni (lit " An unexpected error occurred: ")
             ++ uni (str_exn e))
  end.

(** How a run of [main] ends: it returns, or [input] raises [EOFError]
    outside the [try]. *)
Inductive termination : Type :=
  | Returns
  | RaisesEOFError.

(** [main]. [stdin] is the line that [input] reads, without its ending, or
    [None] at the end of the input. *)
Definition main (pf : platform) (fs : filesystem) (stdin : option str)
  : console * filesystem * termination :=
  match stdin with
  | None => (menu, fs, RaisesEOFError)
  | Some choice =>
      let '(out, fs', raised) := main_try pf fs choice in
      (menu ++ out ++ from_option main_except [] raised, fs', Returns)
  end.

(* ===================================================================== *)
(** * Part 4: lemmas and theorems *)
(* ===================================================================== *)

(** ** Accessors *)

Section accessors.
Implicit Types (m : SparseMatrix) (r c v : Z).

Lemma rows_set_element m r c v : rows (set_element m r c v) = rows m.
Proof. unfold set_element. by repeat case_decide. Qed.

Lemma cols_set_element m r c v : cols (set_element m r c v) = cols m.
Proof. unfold set_element. by repeat case_decide. Qed.

Lemma data_set_element_nonzero m r c v :
  v ≠ 0 → data (set_element m r c v) = <[(r, c) := v]> (data m).
Proof. intros Hv. unfold set_element. by rewrite decide_True. Qed.

Lemma data_set_element_zero m r c :
  data (set_element m r c 0) = delete (r, c) (data m).
Proof.
  unfold set_element. rewrite decide_False by lia.
  case_decide as Hin; [done|].
  apply not_elem_of_dom in Hin. by rewrite delete_id.
Qed.

Lemma set_element_zero_absent m r c :
  data m !! (r, c) = None → set_element m r c 0 = m.
Proof.
  intros Hnone. unfold set_element. rewrite decide_False by lia.
  rewrite decide_False; [done|]. by apply not_elem_of_dom.
Qed.

Lemma get_set_element m r c v r' c' :
  get_element (set_element m r c v) r' c'
  = if decide ((r, c) = (r', c')) then v else get_element m r' c'.
Proof.
  unfold get_element. destruct (decide (v = 0)) as [->|Hv].
  - rewrite data_set_element_zero, lookup_delete. by case_decide.
  - rewrite data_set_element_nonzero, lookup_insert by done. by case_decide.
Qed.

Lemma set_element_no_zero m r c v :
  no_zero_entries m → no_zero_entries (set_element m r c v).
Proof.
  intros Hm k x. destruct (decide (v = 0)) as [->|Hv].
  - rewrite data_set_element_zero. intros [_ Hx]%lookup_delete_Some. eauto.
  - rewrite data_set_element_nonzero by done.
    intros [[_ <-]|[_ Hx]]%lookup_insert_Some; eauto.
Qed.

(** Two matrices read the same everywhere exactly when their non-zero
    entries are the same. *)
Lemma nonzero_entries_eq m1 m2 :
  nonzero_entries m1 = nonzero_entries m2
  ↔ ∀ r c, get_element m1 r c = get_element m2 r c.
Proof.
  unfold nonzero_entries, get_element. split.
  - intros Heq r c.
    assert (Hk : filter (λ kv : Z * Z * Z, kv.2 ≠ 0) (data m1) !! (r, c)
                 = filter (λ kv : Z * Z * Z, kv.2 ≠ 0) (data m2) !! (r, c))
      by (by rewrite Heq).
    rewrite !map_lookup_filter in Hk.
    destruct (data m1 !! (r, c)) as [x|], (data m2 !! (r, c)) as [y|];
      simpl in *; repeat case_guard; simplify_eq/=; try done; lia.
  - intros Hget. apply map_eq. intros [r c]. specialize (Hget r c).
    rewrite !map_lookup_filter.
    destruct (data m1 !! (r, c)) as [x|], (data m2 !! (r, c)) as [y|];
      simpl in *; repeat case_guard; simplify_eq/=; try done; lia.
Qed.

Lemma no_zero_data_eq m1 m2 :
  no_zero_entries m1 → no_zero_entries m2 →
  (∀ r c, get_element m1 r c = get_element m2 r c) → data m1 = data m2.
Proof.
  intros H1 H2 Hget. apply map_eq. intros [r c]. specialize (Hget r c).
  unfold get_element in Hget.
  destruct (data m1 !! (r, c)) as [x|] eqn:E1,
           (data m2 !! (r, c)) as [y|] eqn:E2; simpl in *; subst; try done.
  - by apply H1 in E1.
  - by apply H2 in E2.
Qed.
Lemma lookup_data_set_element m r c v k :
  data (set_element m r c v) !! k
  = if decide ((r, c) = k) then (if decide (v ≠ 0) then Some v else None)
    else data m !! k.
Proof.
  destruct (decide (v = 0)) as [->|Hv].
  - rewrite data_set_element_zero, lookup_delete. by case_decide.
  - rewrite data_set_element_nonzero, lookup_insert by done.
    case_decide; [|done]. by rewrite decide_True.
Qed.

Lemma SparseMatrix_eq m1 m2 :
  rows m1 = rows m2 → cols m1 = cols m2 → data m1 = data m2 → m1 = m2.
Proof. destruct m1, m2. simpl. by intros -> -> ->. Qed.
End accessors.

(** ** The loops of [add] and [subtract] *)

Section update_loop.
Variable op : Z → Z → Z.

Let step (result : SparseMatrix) (x : Z * Z * Z) : SparseMatrix :=
  let '((row, col), val) := x in
  set_element result row col (op (get_element result row col) val).

Lemma update_loop_rows its m : rows (foldl step m its) = rows m.
Proof.
  revert m. induction its as [|[[r c] v] its IH]; intros m; simpl; [done|].
  by rewrite IH, rows_set_element.
Qed.

Lemma update_loop_cols its m : cols (foldl step m its) = cols m.
Proof.
  revert m. induction its as [|[[r c] v] its IH]; intros m; simpl; [done|].
  by rewrite IH, cols_set_element.
Qed.

Lemma update_loop_get its m r c :
  NoDup its.*1 →
  get_element (foldl step m its) r c
  = match (list_to_map its : gmap (Z * Z) Z) !! (r, c) with
    | Some v => op (get_element m r c) v
    | None => get_element m r c
    end.
Proof.
  revert m. induction its as [|[[r0 c0] v0] its IH]; intros m Hnd; simpl.
  { by rewrite lookup_empty. }
  rewrite fmap_cons in Hnd. apply NoDup_cons in Hnd as [Hnotin Hnd].
  rewrite IH by done. rewrite get_set_element, lookup_insert.
  case_decide as Hk; [|done]. simplify_eq.
  by rewrite (not_elem_of_list_to_map_1 _ (r, c)).
Qed.

Lemma update_loop_no_zero its m :
  no_zero_entries m → no_zero_entries (foldl step m its).
Proof.
  revert m. induction its as [|[[r c] v] its IH]; intros m Hm; simpl; [done|].
  by apply IH, set_element_no_zero.
Qed.

Lemma update_loop_items (d : gmap (Z * Z) Z) m r c :
  get_element (foldl step m (map_to_list d)) r c
  = match d !! (r, c) with
    | Some v => op (get_element m r c) v
    | None => get_element m r c
    end.
Proof.
  rewrite update_loop_get by apply NoDup_fst_map_to_list.
  by rewrite list_to_map_to_list.
Qed.

(** The loop does not depend on the order in which the items of the
    dictionary come. *)
Lemma update_loop_data its m k :
  NoDup its.*1 →
  data (foldl step m its) !! k
  = match (list_to_map its : gmap (Z * Z) Z) !! k with
    | Some v =>
        let x := op (default 0 (data m !! k)) v in
        if decide (x ≠ 0) then Some x else None
    | None => data m !! k
    end.
Proof.
  revert m. induction its as [|[[r0 c0] v0] its IH]; intros m Hnd.
  { simpl. by rewrite lookup_empty. }
  rewrite fmap_cons in Hnd. apply NoDup_cons in Hnd as [Hnotin Hnd].
  cbn [foldl]. rewrite IH by done.
  change (list_to_map ((r0, c0, v0) :: its))
    with (<[(r0, c0) := v0]> (list_to_map its : gmap (Z * Z) Z)).
  rewrite lookup_insert.
  change (step m (r0, c0, v0))
    with (set_element m r0 c0 (op (get_element m r0 c0) v0)).
  rewrite lookup_data_set_element.
  case_decide as Hk; [|done]. subst k.
  by rewrite (not_elem_of_list_to_map_1 _ (r0, c0)).
Qed.

Lemma update_loop_order its its' m :
  NoDup its.*1 → its ≡ₚ its' → foldl step m its = foldl step m its'.
Proof.
  intros Hnd Hp.
  assert (Hnd' : NoDup its'.*1) by (by rewrite <- Hp).
  apply SparseMatrix_eq.
  - by rewrite !update_loop_rows.
  - by rewrite !update_loop_cols.
  - apply map_eq. intros k. rewrite !update_loop_data by done.
    by rewrite (list_to_map_proper its its').
Qed.
End update_loop.

(** ** [add] and [subtract] *)

Lemma add_unfold_ok (a b : SparseMatrix) :
  rows a = rows b → cols a = cols b →
  ∃ res, add a b = inr res
    ∧ rows res = rows a ∧ cols res = cols a
    ∧ (no_zero_entries a → no_zero_entries res)
    ∧ ∀ r c, get_element res r c = get_element a r c + get_element b r c.
Proof.
  intros Hr Hc. unfold add. rewrite decide_False by tauto.
  eexists; split; [reflexivity|].
  rewrite update_loop_rows, update_loop_cols. repeat split; try done.
  - intros Ha. by apply update_loop_no_zero.
  - intros r c. rewrite (update_loop_items Z.add). unfold get_element; simpl.
    destruct (data b !! (r, c)); simpl; lia.
Qed.

Lemma subtract_unfold_ok (a b : SparseMatrix) :
  rows a = rows b → cols a = cols b →
  ∃ res, subtract a b = inr res
    ∧ rows res = rows a ∧ cols res = cols a
    ∧ (no_zero_entries a → no_zero_entries res)
    ∧ ∀ r c, get_element res r c = get_element a r c - get_element b r c.
Proof.
  intros Hr Hc. unfold subtract. rewrite decide_False by tauto.
  eexists; split; [reflexivity|].
  rewrite update_loop_rows, update_loop_cols. repeat split; try done.
  - intros Ha. by apply update_loop_no_zero.
  - intros r c. rewrite (update_loop_items Z.sub). unfold get_element; simpl.
    destruct (data b !! (r, c)); simpl; lia.
Qed.

Lemma add_raises (a b : SparseMatrix) e :
  add a b = inl e ↔
  (rows a ≠ rows b ∨ cols a ≠ cols b)
  ∧ e = ValueError "Matrix dimensions must match for addition".
Proof.
  unfold add. case_decide as Hd.
  - split; [intros [= <-]; done | intros [_ ->]; done].
  - split; [done | tauto].
Qed.

Lemma subtract_raises (a b : SparseMatrix) e :
  subtract a b = inl e ↔
  (rows a ≠ rows b ∨ cols a ≠ cols b)
  ∧ e = ValueError "Matrix dimensions must match for subtraction".
Proof.
  unfold subtract. case_decide as Hd.
  - split; [intros [= <-]; done | intros [_ ->]; done].
  - split; [done | tauto].
Qed.

(** C1. [add] (resp. [subtract]) raises the dimension error exactly when
    the row counts or the column counts of the operands differ; otherwise
    it returns a matrix with the dimensions of the left operand that reads,
    at every coordinate, as the sum (resp. the difference) of what the
    operands read there. *)
Theorem add_subtract_spec (a b : SparseMatrix) :
  ((∃ e, add a b = inl e ∧ DimensionMismatch e)
     ↔ (rows a ≠ rows b ∨ cols a ≠ cols b))
  ∧ ((∃ e, subtract a b = inl e ∧ DimensionMismatch e)
     ↔ (rows a ≠ rows b ∨ cols a ≠ cols b))
  ∧ (rows a = rows b ∧ cols a = cols b →
     (∃ res, add a b = inr res
        ∧ rows res = rows a ∧ cols res = cols a
        ∧ ∀ r c, get_element res r c = get_element a r c + get_element b r c)
     ∧ (∃ res, subtract a b = inr res
        ∧ rows res = rows a ∧ cols res = cols a
        ∧ ∀ r c, get_element res r c = get_element a r c - get_element b r c)).
Proof.
  split_and!.
  - split.
    + intros (e & He & _). by apply add_raises in He as [? _].
    + intros Hd. eexists. split; [by apply add_raises|]. by left.
  - split.
    + intros (e & He & _). by apply subtract_raises in He as [? _].
    + intros Hd. eexists. split; [by apply subtract_raises|]. right; by left.
  - intros [Hr Hc]. split.
    + destruct (add_unfold_ok a b Hr Hc) as (res & ? & ? & ? & _ & ?); eauto.
    + destruct (subtract_unfold_ok a b Hr Hc) as (res & ? & ? & ? & _ & ?); eauto.
Qed.

(** C7. For operands of equal dimensions, adding [b] and then subtracting
    it again gives back the dimensions and the non-zero entries of [a]. *)
Theorem subtract_add_cancel (a b : SparseMatrix) :
  rows a = rows b → cols a = cols b →
  ∃ s res, add a b = inr s ∧ subtract s b = inr res
    ∧ rows res = rows a ∧ cols res = cols a
    ∧ nonzero_entries res = nonzero_entries a.
Proof.
  intros Hr Hc.
  destruct (add_unfold_ok a b Hr Hc) as (s & Hs & Hsr & Hsc & _ & Hsg).
  destruct (subtract_unfold_ok s b) as (res & Hres & Hrr & Hrc & _ & Hrg);
    [congruence..|].
  exists s, res. split_and!; [done|done|congruence|congruence|].
  apply nonzero_entries_eq. intros r c. rewrite Hrg, Hsg. lia.
Qed.

(** ** [set_element] *)

(** C6. Starting from a matrix without stored zero, no sequence of
    [set_element] calls stores one: a call with a non-zero value inserts or
    overwrites the entry, a call with zero removes the entry when there is
    one and changes nothing otherwise. *)
Theorem set_element_sequence_no_zero (m : SparseMatrix) (calls : list (Z * Z * Z)) :
  no_zero_entries m →
  no_zero_entries (foldl (λ m '((row, col), value), set_element m row col value)
                         m calls)
  ∧ (∀ m' r c v, v ≠ 0 →
       data (set_element m' r c v) = <[(r, c) := v]> (data m'))
  ∧ (∀ m' r c, is_Some (data m' !! (r, c)) →
       data (set_element m' r c 0) = delete (r, c) (data m'))
  ∧ (∀ m' r c, data m' !! (r, c) = None → set_element m' r c 0 = m').
Proof.
  intros Hm. split_and!.
  - revert m Hm. induction calls as [|[[r c] v] calls IH]; intros m Hm; [done|].
    simpl. by apply IH, set_element_no_zero.
  - intros. by apply data_set_element_nonzero.
  - intros. apply data_set_element_zero.
  - intros. by apply set_element_zero_absent.
Qed.

(** ** [multiply] *)

Lemma sumZ_cons x l : sumZ (x :: l) = x + sumZ l.
Proof. reflexivity. Qed.

Lemma sumZ_app l1 l2 : sumZ (l1 ++ l2) = sumZ l1 + sumZ l2.
Proof. induction l1 as [|x l1 IH]; simpl; lia. Qed.

Lemma sumZ_Permutation l1 l2 : l1 ≡ₚ l2 → sumZ l1 = sumZ l2.
Proof. induction 1; simpl; lia. Qed.

Lemma sumZ_zero {A} (f : A → Z) (l : list A) :
  (∀ x, x ∈ l → f x = 0) → sumZ (f <$> l) = 0.
Proof.
  induction l as [|x l IH]; intros Hf; csimpl; [done|].
  rewrite Hf, IH; [done| |]; intros; try apply Hf; by constructor.
Qed.

(** Changing a summand at one index that the list has at most once. *)
Lemma sumZ_point (f f' : Z → Z) (k0 : Z) (l : list Z) :
  NoDup l → (∀ k, k ≠ k0 → f' k = f k) →
  sumZ (f' <$> l)
  = sumZ (f <$> l) + (if decide (k0 ∈ l) then f' k0 - f k0 else 0).
Proof.
  intros Hnd Hf. induction Hnd as [|k l Hk Hnd IH].
  { rewrite decide_False; [simpl; lia|]. apply not_elem_of_nil. }
  rewrite !fmap_cons, !sumZ_cons, IH. destruct (decide (k = k0)) as [->|Hne].
  - rewrite (decide_False (P := k0 ∈ l)) by done.
    rewrite decide_True by constructor. lia.
  - rewrite (Hf k) by done.
    destruct (decide (k0 ∈ l)) as [Hin|Hnin].
    + rewrite decide_True by (by constructor). lia.
    + rewrite decide_False; [lia|]. by intros [?|?]%elem_of_cons.
Qed.

(** The sum over the stored entries of one row is the sum over a range of
    columns that covers the row. *)
Lemma sparse_row_sum (g : Z → Z) (r : Z) (l : list Z) (d : gmap (Z * Z) Z) :
  NoDup l → (∀ c v, d !! (r, c) = Some v → c ∈ l) →
  sumZ ((λ '((r1, c1), v1), if decide (r1 = r) then v1 * g c1 else 0)
          <$> map_to_list d)
  = sumZ ((λ k, default 0 (d !! (r, k)) * g k) <$> l).
Proof.
  intros Hnd. induction d as [|[r0 c0] v0 d Hfresh IH] using map_ind; intros Hin.
  { rewrite map_to_list_empty. simpl. symmetry. apply sumZ_zero.
    intros k _. by rewrite lookup_empty. }
  rewrite (sumZ_Permutation _ _ (fmap_Permutation _ _ _
             (map_to_list_insert d (r0, c0) v0 Hfresh))).
  rewrite fmap_cons, sumZ_cons, IH; last first.
  { intros c v Hcv. apply (Hin c v). rewrite lookup_insert_ne; [done|].
    intros [= -> ->]. congruence. }
  case_decide as Hr.
  - subst r0.
    rewrite (sumZ_point (λ k, default 0 (d !! (r, k)) * g k)
                        (λ k, default 0 (<[(r, c0) := v0]> d !! (r, k)) * g k)
                        c0 l Hnd).
    + rewrite decide_True by (apply (Hin c0 v0), lookup_insert_eq).
      rewrite lookup_insert_eq, Hfresh. simpl. lia.
    + intros k Hk. rewrite lookup_insert_ne; [done|]. congruence.
  - rewrite Z.add_0_l. f_equal. apply list_fmap_ext. intros _ k _.
    rewrite lookup_insert_ne; [done|]. congruence.
Qed.

Section multiply_loops.
Variable other : SparseMatrix.

Let inner (r1 c1 v1 : Z) (result : SparseMatrix) (c2 : Z) : SparseMatrix :=
  let v2 := get_element other c1 c2 in
  if decide (v2 ≠ 0) then
    let current_val := get_element result r1 c2 in
    set_element result r1 c2 (current_val + v1 * v2)
  else result.

Let outer (cs : list Z) (result : SparseMatrix) (x : Z * Z * Z) : SparseMatrix :=
  let '((r1, c1), v1) := x in foldl (inner r1 c1 v1) result cs.

Lemma inner_loop_dims r1 c1 v1 cs m :
  rows (foldl (inner r1 c1 v1) m cs) = rows m
  ∧ cols (foldl (inner r1 c1 v1) m cs) = cols m.
Proof.
  revert m. induction cs as [|c2 cs IH]; intros m; simpl; [done|].
  destruct (IH (inner r1 c1 v1 m c2)) as [-> ->]. unfold inner.
  case_decide; [|done]. by rewrite rows_set_element, cols_set_element.
Qed.

Lemma inner_loop_no_zero r1 c1 v1 cs m :
  no_zero_entries m → no_zero_entries (foldl (inner r1 c1 v1) m cs).
Proof.
  revert m. induction cs as [|c2 cs IH]; intros m Hm; simpl; [done|].
  apply IH. unfold inner. case_decide; [|done]. by apply set_element_no_zero.
Qed.

Lemma inner_loop_get r1 c1 v1 cs m r c :
  NoDup cs →
  get_element (foldl (inner r1 c1 v1) m cs) r c
  = get_element m r c
    + (if decide (r1 = r ∧ c ∈ cs) then v1 * get_element other c1 c else 0).
Proof.
  intros Hnd. revert m. induction Hnd as [|c2 cs Hc2 Hnd IH]; intros m; simpl.
  { rewrite decide_False; [lia|]. intros [_ []%not_elem_of_nil]. }
  rewrite IH. unfold inner. cbv zeta.
  destruct (decide (r1 = r ∧ c2 = c)) as [[-> ->]|Hne].
  - rewrite (decide_False (P := r = r ∧ c ∈ cs)) by tauto.
    rewrite (decide_True (P := r = r ∧ c ∈ c :: cs)) by (split; [done|constructor]).
    destruct (decide (get_element other c1 c ≠ 0)) as [Hv2|Hv2].
    + rewrite get_set_element, decide_True by done. lia.
    + apply dec_stable in Hv2. rewrite Hv2. lia.
  - assert (Hsame : get_element
              (if decide (get_element other c1 c2 ≠ 0) then
                 set_element m r1 c2 (get_element m r1 c2 + v1 * get_element other c1 c2)
               else m) r c = get_element m r c).
    { destruct (decide (get_element other c1 c2 ≠ 0)); [|done].
      rewrite get_set_element, decide_False; [done|].
      intros [= -> ->]. tauto. }
    rewrite Hsame. f_equal.
    destruct (decide (r1 = r ∧ c ∈ cs)) as [[-> Hin]|Hnin].
    + rewrite decide_True; [done|]. split; [done|]. by constructor.
    + rewrite decide_False; [done|]. intros [-> [->|?]%elem_of_cons]; tauto.
Qed.

Lemma outer_loop_dims cs its m :
  rows (foldl (outer cs) m its) = rows m
  ∧ cols (foldl (outer cs) m its) = cols m.
Proof.
  revert m. induction its as [|[[r1 c1] v1] its IH]; intros m; simpl; [done|].
  destruct (IH (foldl (inner r1 c1 v1) m cs)) as [-> ->].
  apply inner_loop_dims.
Qed.

Lemma outer_loop_no_zero cs its m :
  no_zero_entries m → no_zero_entries (foldl (outer cs) m its).
Proof.
  revert m. induction its as [|[[r1 c1] v1] its IH]; intros m Hm; simpl; [done|].
  by apply IH, inner_loop_no_zero.
Qed.

Lemma outer_loop_get cs its m r c :
  NoDup cs →
  get_element (foldl (outer cs) m its) r c
  = get_element m r c
    + sumZ ((λ '((r1, c1), v1),
              if decide (r1 = r)
              then v1 * (if decide (c ∈ cs) then get_element other c1 c else 0)
              else 0) <$> its).
Proof.
  intros Hnd. revert m.
  induction its as [|[[r1 c1] v1] its IH]; intros m.
  { rewrite fmap_nil. cbn. lia. }
  change (foldl (outer cs) m ((r1, c1, v1) :: its))
    with (foldl (outer cs) (foldl (inner r1 c1 v1) m cs) its).
  rewrite fmap_cons, sumZ_cons, IH, inner_loop_get by done.
  destruct (decide (r1 = r)) as [->|Hr], (decide (c ∈ cs)) as [Hc|Hc].
  - rewrite decide_True by done. lia.
  - rewrite decide_False by tauto. lia.
  - rewrite decide_False by tauto. lia.
  - rewrite decide_False by tauto. lia.
Qed.

(** The outer loop does not depend on the order of the items either. *)
Lemma outer_loop_order cs its its' m :
  NoDup cs → no_zero_entries m → its ≡ₚ its' →
  foldl (outer cs) m its = foldl (outer cs) m its'.
Proof.
  intros Hcs Hm Hp. apply SparseMatrix_eq.
  - destruct (outer_loop_dims cs its m) as [-> _].
    by destruct (outer_loop_dims cs its' m) as [-> _].
  - destruct (outer_loop_dims cs its m) as [_ ->].
    by destruct (outer_loop_dims cs its' m) as [_ ->].
  - apply no_zero_data_eq; [by apply outer_loop_no_zero..|].
    intros r c. rewrite !outer_loop_get by done. f_equal.
    apply sumZ_Permutation. by apply fmap_Permutation.
Qed.
End multiply_loops.

Lemma multiply_raises (a b : SparseMatrix) e :
  multiply a b = inl e ↔
  cols a ≠ rows b
  ∧ e = ValueError "Matrix dimensions do not allow multiplication".
Proof.
  unfold multiply. case_decide as Hd.
  - split; [intros [= <-]; done | intros [_ ->]; done].
  - split; [done | tauto].
Qed.

Lemma multiply_returns (a b : SparseMatrix) :
  cols a = rows b → keys_in_bounds a → keys_in_bounds b →
  ∃ res, multiply a b = inr res
    ∧ rows res = rows a ∧ cols res = cols b
    ∧ no_zero_entries res
    ∧ ∀ r c, get_element res r c = dense_product a b r c.
Proof.
  intros Hd Ha Hb. unfold multiply. rewrite decide_False by (by intros ?).
  eexists; split; [reflexivity|].
  split_and!.
  - exact (proj1 (outer_loop_dims b _ _ _)).
  - exact (proj2 (outer_loop_dims b _ _ _)).
  - apply outer_loop_no_zero. intros k v. simpl. by rewrite lookup_empty.
  - intros r c. rewrite outer_loop_get by apply NoDup_seqZ.
    unfold get_element at 1. simpl. rewrite lookup_empty. simpl.
    rewrite (sparse_row_sum
               (λ c1, if decide (c ∈ range (cols b)) then get_element b c1 c else 0)
               r (range (cols a)) (data a) (NoDup_seqZ _ _)).
    + unfold dense_product. rewrite Z.add_0_l. f_equal.
      apply list_fmap_ext. intros _ k _.
      unfold get_element at 2. f_equal. case_decide as Hc; [done|].
      unfold get_element. destruct (data b !! (k, c)) as [v|] eqn:E; [|done].
      exfalso. apply Hc. apply Hb in E. unfold range. apply elem_of_seqZ. lia.
    + intros c1 v1 E. apply Ha in E. unfold range. apply elem_of_seqZ. lia.
Qed.

(** C2. [multiply] raises the dimension error exactly when the column
    count of the left operand differs from the row count of the right one;
    on well-formed operands of compatible shape it returns a matrix of
    [rows a] by [cols b] that reads, at every coordinate, as the dense
    reference sum; and the 2x2 example of the specification. *)
Theorem multiply_spec (a b : SparseMatrix) :
  ((∃ e, multiply a b = inl e ∧ DimensionMismatch e) ↔ cols a ≠ rows b)
  ∧ (cols a = rows b →
     keys_in_bounds a → no_zero_entries a →
     keys_in_bounds b → no_zero_entries b →
     ∃ res, multiply a b = inr res
       ∧ rows res = rows a ∧ cols res = cols b
       ∧ ∀ r c, get_element res r c = dense_product a b r c)
  ∧ multiply (mkSparseMatrix 2 2 (list_to_map [((0, 0), 1); ((1, 1), 2)]))
             (mkSparseMatrix 2 2
                (list_to_map [((0, 0), 3); ((0, 1), 4); ((1, 1), 5)]))
    = inr (mkSparseMatrix 2 2
             (list_to_map [((0, 0), 3); ((0, 1), 4); ((1, 1), 10)])).
Proof.
  split_and!.
  - split.
    + intros (e & He & _). by apply multiply_raises in He as [? _].
    + intros Hd. eexists. split; [by apply multiply_raises|]. right; by right.
  - intros Hd Ha _ Hb _.
    destruct (multiply_returns a b Hd Ha Hb) as (res & ? & ? & ? & _ & ?); eauto.
  - by vm_compute.
Qed.

(** ** Strings: [strip], [split], [int] and [str] *)

Section strings.
Implicit Types (s t : str) (c : ascii).

Lemma eqb_char_true c : Ascii.eqb c c = true.
Proof. apply Ascii.eqb_refl. Qed.

Lemma eqb_char_false c c' : c ≠ c' → Ascii.eqb c c' = false.
Proof. intros. by apply Ascii.eqb_neq. Qed.

Lemma lstrip_trimmed s : trimmed s → lstrip s = s.
Proof. intros [H _]. destruct s as [|c s]; simpl in *; [done|]. by rewrite H. Qed.

Lemma strip_trimmed s : trimmed s → strip s = s.
Proof.
  intros Hs. unfold strip, rstrip. rewrite (lstrip_trimmed s Hs).
  destruct Hs as [_ H]. destruct (reverse s) as [|c r] eqn:E; simpl in *.
  - by apply (f_equal reverse) in E; rewrite reverse_involutive in E.
  - rewrite H, <- E. apply reverse_involutive.
Qed.

Lemma lstrip_space c s : isspace c = true → lstrip (c :: s) = lstrip s.
Proof. intros H. simpl. by rewrite H. Qed.

Lemma strip_space_l c s : isspace c = true → strip (c :: s) = strip s.
Proof. intros H. unfold strip. by rewrite lstrip_space. Qed.

Lemma strip_space_r c s :
  isspace c = true → trimmed s → strip (s ++ [c]) = s.
Proof.
  intros Hc Hs. destruct s as [|c0 s].
  { unfold strip. simpl. by rewrite Hc. }
  unfold strip, rstrip.
  assert (lstrip ((c0 :: s) ++ [c]) = (c0 :: s) ++ [c]) as ->.
  { destruct Hs as [H0 _]. simpl in *. by rewrite H0. }
  rewrite reverse_app. simpl. rewrite Hc.
  destruct Hs as [_ H]. destruct (reverse (c0 :: s)) as [|c1 r] eqn:E.
  - by apply (f_equal reverse) in E; rewrite reverse_involutive in E.
  - simpl in *. rewrite H, <- E. apply reverse_involutive.
Qed.

(** [split] on a separator that occurs in neither field. *)
Lemma split_no_sep sep s :
  Forall (λ c, c ≠ sep) s → split sep s = [s].
Proof.
  induction 1 as [|c s Hc Hs IH]; simpl; [done|].
  by rewrite eqb_char_false, IH.
Qed.

Lemma split_nonempty sep s : split sep s ≠ [].
Proof.
  destruct s as [|c s]; simpl; [done|].
  destruct (Ascii.eqb c sep); [done|]. by destruct (split sep s).
Qed.

Lemma split_app_sep sep s t :
  Forall (λ c, c ≠ sep) s → split sep (s ++ sep :: t) = s :: split sep t.
Proof.
  induction 1 as [|c s Hc Hs IH]; simpl.
  - by rewrite eqb_char_true.
  - by rewrite eqb_char_false, IH.
Qed.

Lemma startswith_app s t : startswith (s ++ t) s = true.
Proof.
  induction s as [|c s IH]; simpl; [by destruct t|].
  by rewrite eqb_char_true, IH.
Qed.

Lemma endswith_app s t : endswith (s ++ t) t = true.
Proof. unfold endswith. rewrite reverse_app. apply startswith_app. Qed.

Lemma slice_1_m1_app c s c' : slice_1_m1 (c :: s ++ [c']) = s.
Proof.
  unfold slice_1_m1. cbn [drop]. rewrite length_cons, length_app.
  replace (S (length s + length [c']) - 2)%nat with (length s)
    by (simpl; lia).
  apply take_app_length.
Qed.
End strings.

(** ** [int(str(n)) = n] *)

Section decimal.
Import Decimal.

Lemma int_digits_acc (u : uint) (acc : positive) :
  int_digits (Z.pos acc) true (digits_of u)
  = Some (Z.pos (Pos.of_uint_acc u acc)).
Proof.
  revert acc. unfold digits_of.
  induction u as [|u IH|u IH|u IH|u IH|u IH|u IH|u IH|u IH|u IH|u IH];
    intros acc; [done|..];
    cbn [NilEmpty.string_of_uint list_ascii_of_string int_digits Pos.of_uint_acc];
    match goal with
    | |- context [digit_of ?c] =>
        let d := eval vm_compute in (digit_of c) in
        change (digit_of c) with d
    end; cbv iota;
    match goal with
    | |- int_digits ?a _ _ = Some (Z.pos (Pos.of_uint_acc _ ?b)) =>
        replace a with (Z.pos b) by lia
    end; apply IH.
Qed.

Lemma int_digits_uint (u : uint) (prev : bool) :
  u ≠ Nil →
  int_digits 0 prev (digits_of u) = Some (Z.of_N (Pos.of_uint u)).
Proof.
  revert prev. unfold digits_of.
  induction u as [|u IH|u IH|u IH|u IH|u IH|u IH|u IH|u IH|u IH|u IH];
    intros prev Hnil; [done|..];
    cbn [NilEmpty.string_of_uint list_ascii_of_string int_digits Pos.of_uint];
    match goal with
    | |- context [digit_of ?c] =>
        let d := eval vm_compute in (digit_of c) in
        change (digit_of c) with d
    end; cbv iota.
  1: { assert (u = Nil ∨ u ≠ Nil) as [->|Hu]
         by (destruct u; [by left|by right..]); [done|].
       rewrite Z.mul_0_r, Z.add_0_l. by apply IH. }
  all: rewrite Z.mul_0_r, Z.add_0_l; apply (int_digits_acc u).
Qed.

Lemma digits_of_chars (u : uint) :
  Forall (λ c, digit_of c ≠ None) (digits_of u).
Proof.
  unfold digits_of.
  induction u; cbn [NilEmpty.string_of_uint list_ascii_of_string];
    constructor; done.
Qed.

Lemma digits_of_nonempty (u : uint) : u ≠ Nil → digits_of u ≠ [].
Proof. by destruct u. Qed.

(** [str(n)] is an optional minus sign followed by the digits of [|n|]. *)
Lemma py_str_shape (n : Z) :
  ∃ u, u ≠ Nil ∧ Z.of_N (Pos.of_uint u) = Z.abs n
       ∧ py_str n = (if decide (n < 0) then ["-"%char] else []) ++ digits_of u.
Proof.
  destruct n as [|p|p].
  - exists (D0 Nil). by split_and!.
  - exists (Pos.to_uint p). split_and!.
    + apply Unsigned.to_uint_nonnil.
    + by rewrite Unsigned.of_to.
    + done.
  - exists (Pos.to_uint p). split_and!.
    + apply Unsigned.to_uint_nonnil.
    + by rewrite Unsigned.of_to.
    + done.
Qed.
End decimal.

Lemma int_char_digit c : digit_of c ≠ None → int_char c = true.
Proof. unfold int_char. by destruct (digit_of c). Qed.

Lemma py_str_chars n : Forall (λ c, int_char c = true) (py_str n).
Proof.
  destruct (py_str_shape n) as (u & _ & _ & ->). apply Forall_app. split.
  - case_decide; by repeat constructor.
  - eapply Forall_impl; [apply digits_of_chars|]. apply int_char_digit.
Qed.

Lemma py_str_nonempty n : py_str n ≠ [].
Proof.
  destruct (py_str_shape n) as (u & Hu & _ & ->).
  case_decide; [done|]. by apply digits_of_nonempty.
Qed.

(** What the characters of [str(n)] are not. *)
Lemma int_char_not_space c : int_char c = true → isspace c = false.
Proof.
  destruct c as [[] [] [] [] [] [] [] []]; vm_compute; congruence.
Qed.

Lemma int_char_neq c c' :
  int_char c = true → int_char c' = false → c ≠ c'.
Proof. intros H1 H2 ->. congruence. Qed.

Lemma Forall_not_space_trimmed s :
  Forall (λ c, isspace c = false) s → trimmed s.
Proof.
  intros Hs. split.
  - by destruct Hs.
  - apply Forall_reverse in Hs. by destruct Hs.
Qed.

Lemma py_str_trimmed n : trimmed (py_str n).
Proof.
  apply Forall_not_space_trimmed.
  eapply Forall_impl; [apply py_str_chars|]. apply int_char_not_space.
Qed.

Lemma py_str_no_char n c :
  int_char c = false → Forall (λ c', c' ≠ c) (py_str n).
Proof.
  intros Hc. eapply Forall_impl; [apply py_str_chars|].
  intros c' Hc'. by apply int_char_neq.
Qed.

Lemma int_char_not_space_int c : int_char c = true → isspace_int c = false.
Proof.
  destruct c as [[] [] [] [] [] [] [] []]; vm_compute; congruence.
Qed.

Lemma strip_int_id s :
  Forall (λ c, isspace_int c = false) s → strip_int s = s.
Proof.
  intros Hs. unfold strip_int.
  assert (Hl : ∀ t, Forall (λ c, isspace_int c = false) t → lstrip_int t = t).
  { intros t [|c t' Hc _]; [done|]. simpl. by rewrite Hc. }
  rewrite (Hl s Hs), Hl by (by apply Forall_reverse).
  apply reverse_involutive.
Qed.

Lemma py_int_py_str n : py_int (py_str n) = Some n.
Proof.
  unfold py_int. rewrite strip_int_id
    by (eapply Forall_impl; [apply py_str_chars|apply int_char_not_space_int]).
  destruct (py_str_shape n) as (u & Hu & Habs & ->).
  case_decide as Hneg.
  - cbn [app]. rewrite eqb_char_true, int_digits_uint by done.
    simpl. f_equal. lia.
  - rewrite app_nil_l.
    pose proof (digits_of_chars u) as Hd.
    pose proof (int_digits_uint u false Hu) as Hval.
    destruct (digits_of u) as [|c r] eqn:E; [by apply digits_of_nonempty in E|].
    apply Forall_cons in Hd as [Hc _].
    assert (Ascii.eqb c "-" = false) as ->.
    { apply eqb_char_false. intros ->. by apply Hc. }
    assert (Ascii.eqb c "+" = false) as ->.
    { apply eqb_char_false. intros ->. by apply Hc. }
    rewrite Hval. f_equal. lia.
Qed.

Lemma int_py_str n : int (py_str n) = inr n.
Proof. unfold int. by rewrite py_int_py_str. Qed.

(** ** Reading back the lines of a text *)

Lemma trimmed_app s t :
  s ≠ [] → t ≠ [] → trimmed s → trimmed t → trimmed (s ++ t).
Proof.
  intros Hs Ht [Hs1 _] [_ Ht2]. split.
  - by destruct s.
  - rewrite reverse_app. destruct (reverse t) as [|c r] eqn:E; [|done].
    by apply (f_equal reverse) in E; rewrite reverse_involutive in E.
Qed.

Lemma trimmed_enclosed c s c' :
  isspace c = false → isspace c' = false → trimmed (c :: s ++ [c']).
Proof.
  intros Hc Hc'. split; [done|].
  by rewrite reverse_cons, reverse_app.
Qed.

Lemma readlines_line s rest :
  Forall (λ c, c ≠ LF ∧ c ≠ CR) s →
  readlines (s ++ LF :: rest) = (s ++ [LF]) :: readlines rest.
Proof.
  induction 1 as [|c s [H1 H2] Hs IH]; [done|].
  cbn [app readlines]. rewrite IH.
  by rewrite !eqb_char_false.
Qed.

Lemma readlines_last s :
  s ≠ [] → Forall (λ c, c ≠ LF ∧ c ≠ CR) s → readlines s = [s].
Proof.
  intros Hne Hs. induction Hs as [|c s [H1 H2] Hs IH]; [done|].
  cbn [readlines]. rewrite !eqb_char_false by done.
  destruct s as [|c' s]; [done|]. by rewrite IH.
Qed.

Lemma load_line_strip self s t :
  strip s = strip t → load_line self s = load_line self t.
Proof. unfold load_line. by intros ->. Qed.

Lemma load_line_LF self s :
  clean_line s → load_line self (s ++ [LF]) = load_line self s.
Proof.
  intros (_ & Ht & _). apply load_line_strip.
  by rewrite strip_space_r, strip_trimmed.
Qed.

(** Parsing a text written as clean lines joined by LF goes through the
    lines themselves. *)
Lemma for_loop_readlines_join self ls :
  ls ≠ [] → Forall clean_line ls →
  for_loop load_line self (readlines (join [LF] ls))
  = for_loop load_line self ls.
Proof.
  intros Hne Hls. revert self.
  induction Hls as [|l ls Hl Hls IH]; intros self; [done|].
  destruct ls as [|l' ls].
  - cbn [join]. destruct Hl as (Hl & _ & Hnl). by rewrite readlines_last.
  - change (join [LF] (l :: l' :: ls)) with (l ++ LF :: join [LF] (l' :: ls)).
    rewrite readlines_line by apply Hl.
    cbn [for_loop]. rewrite load_line_LF by done.
    destruct (load_line self l) as [e|self']; [done|].
    cbn. by apply IH.
Qed.

(** ** The lines of [to_string] and what [load_line] makes of them *)

Lemma foldl_append {A B} (f : A → B) (init : list B) (l : list A) :
  foldl (λ lines x, lines ++ [f x]) init l = init ++ (f <$> l).
Proof.
  revert init. induction l as [|x l IH]; intros init; simpl.
  - by rewrite app_nil_r.
  - by rewrite IH, <- app_assoc.
Qed.

Lemma to_string_lines (m : SparseMatrix) :
  to_string m
  = join [LF] ((lit "rows=" ++ py_str (rows m))
               :: (lit "cols=" ++ py_str (cols m))
               :: (entry_line <$> sorted (map_to_list (data m)))).
Proof. unfold to_string. by rewrite foldl_append. Qed.

Lemma entry_line_shape r c v :
  entry_line (r, c, v)
  = "("%char :: (py_str r ++ ","%char :: (" "%char :: py_str c)
                  ++ ","%char :: " "%char :: py_str v) ++ [")"%char].
Proof.
  unfold entry_line, lit. simpl. f_equal.
  rewrite <- app_assoc. f_equal. simpl. do 2 f_equal.
  by rewrite <- app_assoc.
Qed.

Lemma startswith_head_ne c s p prefix :
  c ≠ p → startswith (c :: s) (lit (String p prefix)) = false.
Proof. intros H. cbn. by rewrite eqb_char_false. Qed.

Lemma startswith_head c s : startswith (c :: s) (lit (String c EmptyString)) = true.
Proof. cbn. by rewrite eqb_char_true. Qed.

Lemma load_line_rows self n :
  load_line self (lit "rows=" ++ py_str n) = inr (set_rows n self).
Proof.
  unfold load_line.
  assert (Htr : trimmed (lit "rows=" ++ py_str n)).
  { apply trimmed_app; [done|apply py_str_nonempty|by split|apply py_str_trimmed]. }
  rewrite (strip_trimmed _ Htr).
  rewrite bool_decide_eq_false_2 by done.
  rewrite startswith_app.
  change (lit "rows=" ++ py_str n) with (lit "rows" ++ "="%char :: py_str n).
  rewrite split_app_sep by (by repeat constructor).
  rewrite split_no_sep by (by apply py_str_no_char).
  cbn [index lookup list_lookup mbind result_bind mret result_ret].
  by rewrite (strip_trimmed _ (py_str_trimmed n)), int_py_str.
Qed.

Lemma load_line_cols self n :
  load_line self (lit "cols=" ++ py_str n) = inr (set_cols n self).
Proof.
  unfold load_line.
  assert (Htr : trimmed (lit "cols=" ++ py_str n)).
  { apply trimmed_app; [done|apply py_str_nonempty|by split|apply py_str_trimmed]. }
  rewrite (strip_trimmed _ Htr).
  rewrite bool_decide_eq_false_2 by done.
  change (startswith (lit "cols=" ++ py_str n) (lit "rows=")) with false.
  cbv iota. rewrite startswith_app.
  change (lit "cols=" ++ py_str n) with (lit "cols" ++ "="%char :: py_str n).
  rewrite split_app_sep by (by repeat constructor).
  rewrite split_no_sep by (by apply py_str_no_char).
  cbn [index lookup list_lookup mbind result_bind mret result_ret].
  by rewrite (strip_trimmed _ (py_str_trimmed n)), int_py_str.
Qed.

Lemma load_line_entry self r c v :
  load_line self (entry_line (r, c, v))
  = inr (set_data (<[(r, c) := v]> (data self)) self).
Proof.
  unfold load_line. rewrite entry_line_shape.
  rewrite (strip_trimmed _ (trimmed_enclosed "(" _ ")" eq_refl eq_refl)).
  rewrite bool_decide_eq_false_2 by done.
  rewrite !(startswith_head_ne "(") by done.
  rewrite startswith_head.
  match goal with |- context [endswith (?c :: ?s ++ ?t) (lit ")")] =>
    change (endswith (c :: s ++ t) (lit ")")) with (endswith ((c :: s) ++ t) t)
  end.
  rewrite endswith_app. cbn [andb]. rewrite slice_1_m1_app.
  rewrite split_app_sep by (by apply py_str_no_char).
  rewrite split_app_sep
    by (constructor; [done|by apply py_str_no_char]).
  rewrite split_no_sep
    by (constructor; [done|by apply py_str_no_char]).
  rewrite bool_decide_eq_false_2 by (intros H; by apply H).
  cbn [index lookup list_lookup mbind result_bind mret result_ret].
  rewrite !(strip_space_l " ") by done.
  by rewrite !(strip_trimmed _ (py_str_trimmed _)), !int_py_str.
Qed.

Lemma for_loop_entries self (its : list (Z * Z * Z)) :
  for_loop load_line self (entry_line <$> its)
  = inr (set_data (foldl (λ d '(k, v), <[k := v]> d) (data self) its) self).
Proof.
  revert self. induction its as [|[[r c] v] its IH]; intros self.
  - by destruct self.
  - rewrite fmap_cons. cbn [for_loop]. rewrite load_line_entry.
    cbn [mbind result_bind]. by rewrite IH.
Qed.

Lemma foldl_insert_lookup (its : list (Z * Z * Z)) (d : gmap (Z * Z) Z) k :
  NoDup its.*1 →
  foldl (λ d '(k, v), <[k := v]> d) d its !! k
  = match (list_to_map its : gmap (Z * Z) Z) !! k with
    | Some v => Some v
    | None => d !! k
    end.
Proof.
  revert d. induction its as [|[k0 v0] its IH]; intros d Hnd.
  { simpl. by rewrite lookup_empty. }
  rewrite fmap_cons in Hnd. apply NoDup_cons in Hnd as [Hnotin Hnd].
  cbn [foldl]. rewrite IH by done.
  change (list_to_map ((k0, v0) :: its))
    with (<[k0 := v0]> (list_to_map its : gmap (Z * Z) Z)).
  rewrite !lookup_insert.
  case_decide as Hk; [|done]. subst k0.
  by rewrite (not_elem_of_list_to_map_1 _ k).
Qed.

Lemma foldl_insert_items (its : list (Z * Z * Z)) (d : gmap (Z * Z) Z) :
  its ≡ₚ map_to_list d → foldl (λ d '(k, v), <[k := v]> d) ∅ its = d.
Proof.
  intros Hp. apply map_eq. intros k.
  assert (Hnd : NoDup its.*1).
  { rewrite Hp. apply NoDup_fst_map_to_list. }
  rewrite foldl_insert_lookup by done.
  rewrite (list_to_map_proper its (map_to_list d)) by done.
  rewrite list_to_map_to_list, lookup_empty. by destruct (d !! k).
Qed.

(** ** [sorted] *)

#[local] Instance item_le_trans : Transitive item_le.
Proof. intros x y z. unfold item_le. lia. Qed.

#[local] Instance item_le_total : Total item_le.
Proof. intros x y. unfold item_le. lia. Qed.

Lemma sorted_Permutation l : sorted l ≡ₚ l.
Proof. apply merge_sort_Permutation. Qed.

Lemma StronglySorted_keys (l : list (Z * Z * Z)) :
  StronglySorted item_le l → NoDup l.*1 → StronglySorted key_lt l.
Proof.
  induction 1 as [|x l Hl IH Hx]; intros Hnd; constructor.
  - apply IH. rewrite fmap_cons in Hnd. by apply NoDup_cons in Hnd as [_ ?].
  - rewrite fmap_cons in Hnd. apply NoDup_cons in Hnd as [Hnotin _].
    rewrite Forall_forall in Hx. apply Forall_forall. intros y Hy.
    specialize (Hx y Hy).
    assert (x.1 ≠ y.1) as Hne.
    { intros Heq. apply Hnotin. rewrite Heq. by apply list_elem_of_fmap_2. }
    destruct x as [[r c] v], y as [[r' c'] v']. unfold item_le, key_lt in *.
    simpl in *. destruct (decide (r = r')), (decide (c = c')); [congruence|lia..].
Qed.

Lemma sorted_items_keys (d : gmap (Z * Z) Z) :
  StronglySorted key_lt (sorted (map_to_list d)).
Proof.
  apply StronglySorted_keys.
  - apply (StronglySorted_merge_sort item_le).
  - rewrite sorted_Permutation. apply NoDup_fst_map_to_list.
Qed.

Lemma join_LF_concat (x : str) (ls : list str) :
  join [LF] (x :: ls) = x ++ concat ((λ l, LF :: l) <$> ls).
Proof.
  revert x. induction ls as [|y ls IH]; intros x.
  - cbn. by rewrite app_nil_r.
  - change (join [LF] (x :: y :: ls)) with (x ++ [LF] ++ join [LF] (y :: ls)).
    rewrite IH, fmap_cons. cbn [concat app]. done.
Qed.

(** C9. [to_string] writes the line of the rows, the line of the columns
    and one line per stored entry, the entries in ascending order of
    [(row, col)], row first, with one LF between two lines and none after
    the last. Entries set in the order (1,0), (0,5), (0,1) are written in
    the order (0,1), (0,5), (1,0). *)
Theorem to_string_spec (m : SparseMatrix) :
  (∃ its, its ≡ₚ map_to_list (data m)
     ∧ StronglySorted key_lt its
     ∧ to_string m
       = lit "rows=" ++ py_str (rows m)
         ++ LF :: lit "cols=" ++ py_str (cols m)
         ++ concat ((λ '((row, col), val),
                       LF :: lit "(" ++ py_str row ++ lit ", " ++ py_str col
                       ++ lit ", " ++ py_str val ++ lit ")") <$> its))
  ∧ to_string (set_element
                 (set_element
                    (set_element (mkSparseMatrix 2 6 ∅) 1 0 7) 0 5 (-8)) 0 1 9)
    = list_ascii_of_string "rows=2"
      ++ "010"%char :: list_ascii_of_string "cols=6"
      ++ "010"%char :: list_ascii_of_string "(0, 1, 9)"
      ++ "010"%char :: list_ascii_of_string "(0, 5, -8)"
      ++ "010"%char :: list_ascii_of_string "(1, 0, 7)".
Proof.
  split.
  - exists (sorted (map_to_list (data m))). split_and!.
    + apply sorted_Permutation.
    + apply sorted_items_keys.
    + rewrite to_string_lines, join_LF_concat, fmap_cons.
      cbn [concat]. rewrite <- list_fmap_compose, <- !app_assoc.
      cbn [app]. rewrite <- !app_assoc. do 6 f_equal.
      apply list_fmap_ext. by intros _ [[row col] val] _.
  - by vm_compute.
Qed.

(** ** Round trip *)

Lemma py_str_no_newline n : Forall (λ c, c ≠ LF ∧ c ≠ CR) (py_str n).
Proof.
  eapply Forall_impl; [apply py_str_chars|].
  intros c Hc. split; by apply int_char_neq.
Qed.

Lemma clean_line_rows n : clean_line (lit "rows=" ++ py_str n).
Proof.
  split_and!; [done| |].
  - apply trimmed_app; [done|apply py_str_nonempty|by split|apply py_str_trimmed].
  - apply Forall_app. split; [by repeat constructor|apply py_str_no_newline].
Qed.

Lemma clean_line_cols n : clean_line (lit "cols=" ++ py_str n).
Proof.
  split_and!; [done| |].
  - apply trimmed_app; [done|apply py_str_nonempty|by split|apply py_str_trimmed].
  - apply Forall_app. split; [by repeat constructor|apply py_str_no_newline].
Qed.

Lemma clean_line_entry x : clean_line (entry_line x).
Proof.
  destruct x as [[r c] v]. rewrite entry_line_shape. split_and!; [done| |].
  - by apply trimmed_enclosed.
  - repeat first
      [ apply Forall_cons; split; [done|]
      | apply Forall_app; split
      | apply py_str_no_newline
      | apply Forall_nil_2 ].
Qed.

Lemma load_to_string (fs : filesystem) (path : str) (m : SparseMatrix) rows0 cols0 :
  path ≠ [] → fs path = Some (to_string m) →
  __init__ fs (Some path) rows0 cols0 = inr m.
Proof.
  intros Hpath Hfs. unfold __init__. destruct path as [|c p]; [done|].
  unfold load_from_file, open. rewrite Hfs.
  cbn [mbind result_bind mret result_ret].
  rewrite to_string_lines, for_loop_readlines_join; [|done|].
  - cbn [for_loop]. rewrite load_line_rows. cbn [mbind result_bind].
    rewrite load_line_cols. cbn [mbind result_bind].
    rewrite for_loop_entries. cbn [data set_cols set_rows].
    rewrite (foldl_insert_items _ (data m)) by apply sorted_Permutation.
    by destruct m.
  - apply Forall_cons; split; [apply clean_line_rows|].
    apply Forall_cons; split; [apply clean_line_cols|].
    apply Forall_fmap, Forall_true. apply clean_line_entry.
Qed.

(** C4. Loading the text that [to_string] wrote for a matrix without
    stored zero gives a matrix with the same rows, the same columns and the
    same entries. *)
Theorem load_to_string_roundtrip (fs : filesystem) (path : str) (m : SparseMatrix) :
  no_zero_entries m →
  path ≠ [] → fs path = Some (to_string m) →
  ∃ m', __init__ fs (Some path) 0 0 = inr m'
    ∧ rows m' = rows m ∧ cols m' = cols m
    ∧ nonzero_entries m' = nonzero_entries m
    ∧ data m' = data m.
Proof.
  intros _ Hpath Hfs. exists m. by rewrite (load_to_string fs path m).
Qed.

(** ** Loading: errors and files without dimension lines *)

(** Whatever goes wrong, [load_from_file] raises the one format error. *)
Lemma load_from_file_raises fs self path e :
  load_from_file fs self path = inl e → InvalidFormat e.
Proof.
  unfold load_from_file.
  destruct (_ ≫= _) as [e'|m]; [|done]. by intros [= <-].
Qed.

(** A file that cannot be opened. *)
Lemma load_from_file_unreadable fs self path :
  fs path = None →
  load_from_file fs self path = inl (ValueError "Input file has wrong format").
Proof. intros Hfs. unfold load_from_file, open. by rewrite Hfs. Qed.

(** The first line that [load_line] rejects ends the load. *)
Lemma for_loop_first_error self ls1 l ls2 self' e :
  for_loop load_line self ls1 = inr self' →
  load_line self' l = inl e →
  for_loop load_line self (ls1 ++ l :: ls2) = inl e.
Proof.
  revert self. induction ls1 as [|l1 ls1 IH]; intros self; cbn [for_loop app].
  - intros [= ->] Hl. by rewrite Hl.
  - destruct (load_line self l1) as [e1|self1]; [done|]. cbn. apply IH.
Qed.

Lemma startswith_paren_not_keyword line p prefix :
  startswith line (lit "(") = true → p ≠ "("%char →
  startswith line (lit (String p prefix)) = false.
Proof.
  destruct line as [|c line]; [done|]. cbn. intros Hc Hp.
  destruct (Ascii.eqb_spec c "(") as [->|]; [|done].
  by rewrite eqb_char_false.
Qed.

Lemma load_line_blank self line : strip line = [] → load_line self line = inr self.
Proof. intros H. unfold load_line. by rewrite H. Qed.

Lemma load_line_entry_fields self line r c v :
  entry_fields (strip line) = Some (r, c, v) →
  load_line self line = inr (set_data (<[(r, c) := v]> (data self)) self).
Proof.
  unfold entry_fields, load_line. intros H.
  destruct (startswith (strip line) (lit "(")) eqn:Hp; [|done].
  rewrite !(startswith_paren_not_keyword (strip line)) by done.
  destruct (strip line) as [|c0 l0] eqn:Hl; [done|].
  rewrite bool_decide_eq_false_2 by done.
  cbn [andb] in *. destruct (endswith (c0 :: l0) (lit ")")); [|done].
  destruct (split "," (slice_1_m1 (c0 :: l0))) as [|f0 [|f1 [|f2 [|f3 fs]]]];
    try done.
  rewrite bool_decide_eq_false_2 by (intros Hlen; by apply Hlen).
  cbn [index lookup list_lookup mbind result_bind mret result_ret].
  unfold int.
  destruct (py_int (strip f0)) as [r'|]; [|done].
  destruct (py_int (strip f1)) as [c'|]; [|done].
  destruct (py_int (strip f2)) as [v'|]; [|done].
  by simplify_eq/=.
Qed.

(** Outside the [rows=] and [cols=] branches, a line that is not blank and
    is not a well-formed entry line is rejected. *)
Lemma load_line_unrecognised self line :
  strip line ≠ [] →
  startswith (strip line) (lit "rows=") = false →
  startswith (strip line) (lit "cols=") = false →
  entry_fields (strip line) = None →
  ∃ e, load_line self line = inl e.
Proof.
  unfold entry_fields, load_line. intros Hne -> -> H.
  rewrite bool_decide_eq_false_2 by done.
  destruct (startswith (strip line) (lit "(") && endswith (strip line) (lit ")"));
    [|by eexists].
  destruct (split "," (slice_1_m1 (strip line)))
    as [|f0 [|f1 [|f2 [|f3 fs]]]]; try by eexists.
  rewrite bool_decide_eq_false_2 by (intros Hlen; by apply Hlen).
  cbn [index lookup list_lookup mbind result_bind mret result_ret].
  unfold int.
  destruct (py_int (strip f0)) as [r|]; [|by eexists].
  destruct (py_int (strip f1)) as [c|]; [|by eexists].
  destruct (py_int (strip f2)) as [v|]; [|by eexists].
  done.
Qed.

(** In the [rows=] branch only the field between the first and the second
    [=] is read. *)
Lemma load_line_rows_field self line field rest :
  strip line ≠ [] →
  startswith (strip line) (lit "rows=") = true →
  split "=" (strip line) = lit "rows" :: field :: rest →
  load_line self line
  = match py_int (strip field) with
    | Some n => inr (set_rows n self)
    | None => inl (ValueError "invalid literal for int() with base 10")
    end.
Proof.
  unfold load_line. intros Hne -> ->.
  rewrite bool_decide_eq_false_2 by done.
  cbn [index lookup list_lookup mbind result_bind mret result_ret].
  unfold int. by destruct (py_int (strip field)).
Qed.

Lemma for_loop_entries_only self (lines : list str) :
  Forall (λ line, strip line = [] ∨ is_Some (entry_fields (strip line))) lines →
  ∃ m, for_loop load_line self lines = inr m
    ∧ rows m = rows self ∧ cols m = cols self
    ∧ (∀ k, is_Some (data self !! k) → is_Some (data m !! k))
    ∧ ∀ line r c v, line ∈ lines → entry_fields (strip line) = Some (r, c, v) →
        is_Some (data m !! (r, c)).
Proof.
  intros Hlines. revert self.
  induction Hlines as [|line lines Hline Hlines IH]; intros self.
  { exists self. split_and!; try done. by intros ???? ?%not_elem_of_nil. }
  cbn [for_loop]. destruct Hline as [Hblank|[[[r0 c0] v0] Hentry]].
  - rewrite load_line_blank by done. cbn.
    destruct (IH self) as (m & Hm & Hr & Hc & Hkeep & Hin).
    exists m. split_and!; try done.
    intros l r c v [->|Hl]%elem_of_cons He; [by rewrite Hblank in He|eauto].
  - rewrite (load_line_entry_fields _ _ _ _ _ Hentry). cbn.
    destruct (IH (set_data (<[(r0, c0) := v0]> (data self)) self))
      as (m & Hm & Hr & Hc & Hkeep & Hin).
    exists m. split_and!; try done.
    + intros k Hk. apply Hkeep. cbn. rewrite lookup_insert.
      by case_decide.
    + intros l r c v [->|Hl]%elem_of_cons He; [|eauto].
      apply Hkeep. cbn. rewrite He in Hentry. simplify_eq.
      by rewrite lookup_insert_eq.
Qed.

(** *** Files given as texts *)

Lemma padding_char_space c :
  padding_char c = true → isspace c = true ∧ c ≠ LF ∧ c ≠ CR.
Proof.
  destruct c as [[] [] [] [] [] [] [] []]; vm_compute; intros H;
    try discriminate H; split_and!; (reflexivity || discriminate).
Qed.

Lemma lstrip_pad (ws s : str) :
  Forall (λ c, isspace c = true) ws → lstrip (ws ++ s) = lstrip s.
Proof. induction 1 as [|c ws Hc _ IH]; [done|]. cbn. by rewrite Hc. Qed.

Lemma rstrip_pad (s ws : str) :
  Forall (λ c, isspace c = true) ws → rstrip (s ++ ws) = rstrip s.
Proof.
  intros Hws. unfold rstrip. rewrite reverse_app.
  by rewrite lstrip_pad by (by apply Forall_reverse).
Qed.

Lemma rstrip_trimmed (s : str) : trimmed s → rstrip s = s.
Proof.
  intros Hs. pose proof (strip_trimmed s Hs) as H. unfold strip in H.
  by rewrite (lstrip_trimmed s Hs) in H.
Qed.

Lemma strip_blank (ws : str) :
  Forall (λ c, isspace c = true) ws → strip ws = [].
Proof.
  intros Hws. unfold strip.
  rewrite <- (app_nil_r ws), lstrip_pad by done. done.
Qed.

Lemma strip_padded (before s after : str) :
  Forall (λ c, isspace c = true) before →
  Forall (λ c, isspace c = true) after →
  s ≠ [] → trimmed s → strip (before ++ s ++ after) = s.
Proof.
  intros Hb Ha Hne Hs. unfold strip. rewrite lstrip_pad by done.
  assert (lstrip (s ++ after) = s ++ after) as ->.
  { destruct s as [|c s]; [done|]. destruct Hs as [Hc _]. cbn in *.
    by rewrite Hc. }
  rewrite rstrip_pad by done. by apply rstrip_trimmed.
Qed.

Lemma lstrip_snoc_space (s : str) c :
  isspace c = true →
  lstrip (s ++ [c]) = match lstrip s with [] => [] | _ => lstrip s ++ [c] end.
Proof.
  intros Hc. induction s as [|x s IH]; cbn.
  - by rewrite Hc.
  - destruct (isspace x); [done|]. done.
Qed.

Lemma strip_snoc_space (s : str) c :
  isspace c = true → strip (s ++ [c]) = strip s.
Proof.
  intros Hc. unfold strip. rewrite lstrip_snoc_space by done.
  destruct (lstrip s) as [|x t]; [done|].
  apply rstrip_pad. by repeat constructor.
Qed.

(** The lines of a text made of lines without line ending inside, joined
    by LF. *)
Lemma for_loop_readlines_join_any self (ls : list str) :
  Forall (Forall (λ c, c ≠ LF ∧ c ≠ CR)) ls →
  for_loop load_line self (readlines (join [LF] ls))
  = for_loop load_line self ls.
Proof.
  intros Hls. revert self.
  induction Hls as [|l ls Hl Hls IH]; intros self; [done|].
  destruct ls as [|l' ls].
  - cbn [join]. destruct l as [|c l]; [done|]. by rewrite readlines_last.
  - change (join [LF] (l :: l' :: ls)) with (l ++ LF :: join [LF] (l' :: ls)).
    rewrite readlines_line by done. cbn [for_loop].
    rewrite (load_line_strip self (l ++ [LF]) l)
      by (by apply strip_snoc_space).
    destruct (load_line self l) as [e|self']; [done|]. cbn. apply IH.
Qed.

Lemma render_line_no_ending (l : entry_file_line) :
  Forall (λ c, padding_char c = true) (line_padding l) →
  Forall (λ c, c ≠ LF ∧ c ≠ CR) (render_line l).
Proof.
  assert (Hpad : ∀ ws, Forall (λ c, padding_char c = true) ws →
                       Forall (λ c, c ≠ LF ∧ c ≠ CR) ws).
  { intros ws Hws. eapply Forall_impl; [exact Hws|]. intros c Hc.
    by destruct (padding_char_space c Hc) as (_ & ? & ?). }
  destruct l as [ws|before [[row col] val] after]; cbn [line_padding render_line].
  - apply Hpad.
  - intros [Hb Ha]%Forall_app. apply Forall_app. split; [by apply Hpad|].
    apply Forall_app. split; [|by apply Hpad].
    apply (clean_line_entry (row, col, val)).
Qed.

Lemma load_line_rendered self (l : entry_file_line) :
  Forall (λ c, padding_char c = true) (line_padding l) →
  load_line self (render_line l)
  = inr match line_entry l with
        | Some (k, v) => set_data (<[k := v]> (data self)) self
        | None => self
        end.
Proof.
  assert (Hpad : ∀ ws, Forall (λ c, padding_char c = true) ws →
                       Forall (λ c, isspace c = true) ws).
  { intros ws Hws. eapply Forall_impl; [exact Hws|]. intros c Hc.
    by destruct (padding_char_space c Hc) as (? & _). }
  destruct l as [ws|before [[row col] val] after];
    cbn [line_padding render_line line_entry].
  - intros Hws. apply load_line_blank, strip_blank. by apply Hpad.
  - intros [Hb Ha]%Forall_app.
    rewrite (load_line_strip self _ (entry_line (row, col, val))).
    + apply load_line_entry.
    + destruct (clean_line_entry (row, col, val)) as (Hne & Htr & _).
      rewrite (strip_trimmed _ Htr).
      apply (strip_padded before (entry_line (row, col, val)) after); auto.
Qed.

Lemma for_loop_rendered self (ls : list entry_file_line) :
  Forall (λ l, Forall (λ c, padding_char c = true) (line_padding l)) ls →
  for_loop load_line self (render_line <$> ls)
  = inr (set_data (foldl (λ d '(k, v), <[k := v]> d) (data self)
                         (omap line_entry ls)) self).
Proof.
  intros Hls. revert self.
  induction Hls as [|l ls Hl Hls IH]; intros self.
  { by destruct self. }
  rewrite fmap_cons. cbn [for_loop]. rewrite load_line_rendered by done.
  cbn [mbind result_bind]. rewrite IH.
  destruct l as [ws|before [k v] after]; cbn [line_entry omap list_omap];
    by destruct self.
Qed.

Lemma foldl_insert_is_Some (its : list (Z * Z * Z)) (d : gmap (Z * Z) Z) k :
  is_Some (d !! k) → is_Some (foldl (λ d '(k, v), <[k := v]> d) d its !! k).
Proof.
  revert d. induction its as [|[k' v'] its IH]; intros d Hk; [done|].
  cbn [foldl]. apply IH. rewrite lookup_insert. by case_decide.
Qed.

Lemma foldl_insert_member (its : list (Z * Z * Z)) (d : gmap (Z * Z) Z) k v :
  (k, v) ∈ its → is_Some (foldl (λ d '(k, v), <[k := v]> d) d its !! k).
Proof.
  revert d. induction its as [|[k' v'] its IH]; intros d Hin.
  { by apply not_elem_of_nil in Hin. }
  cbn [foldl]. apply elem_of_cons in Hin as [[= <- <-]|Hin].
  - apply foldl_insert_is_Some. by rewrite lookup_insert_eq.
  - by apply IH.
Qed.

(** C10. A file without any [rows=] or [cols=] line whose lines are blank
    or well-formed entry lines loads without error; the matrix has the
    dimensions the constructor defaults to, 0 and 0, and holds the entries
    of the file, which are thus outside the declared bounds. The file is
    described twice: by what the loader reads of it, and as a text of
    blank lines and padded entry lines joined by LF, for which the
    dictionary is given. *)
Theorem load_without_dimension_lines (fs : filesystem) (path text : str) :
  path ≠ [] → fs path = Some text →
  (Forall (λ line, strip line = [] ∨ is_Some (entry_fields (strip line)))
          (readlines text) →
   ∃ m, __init__ fs (Some path) 0 0 = inr m
     ∧ rows m = 0 ∧ cols m = 0
     ∧ ∀ line r c v,
         line ∈ readlines text → entry_fields (strip line) = Some (r, c, v) →
         is_Some (data m !! (r, c)) ∧ ¬ (0 ≤ r < rows m ∧ 0 ≤ c < cols m))
  ∧ ∀ ls : list entry_file_line,
      Forall (λ l, Forall (λ c, padding_char c = true) (line_padding l)) ls →
      text = join [LF] (render_line <$> ls) →
      ∃ m, __init__ fs (Some path) 0 0 = inr m
        ∧ rows m = 0 ∧ cols m = 0
        ∧ data m = foldl (λ d '(k, v), <[k := v]> d) ∅ (omap line_entry ls)
        ∧ ∀ before row col val after,
            EntryLine before (row, col, val) after ∈ ls →
            is_Some (data m !! (row, col))
            ∧ ¬ (0 ≤ row < rows m ∧ 0 ≤ col < cols m).
Proof.
  intros Hpath Hfs. split.
  - intros Hlines. unfold __init__. destruct path as [|c0 p]; [done|].
    unfold load_from_file, open. rewrite Hfs.
    cbn [mbind result_bind mret result_ret].
    destruct (for_loop_entries_only (mkSparseMatrix 0 0 ∅) _ Hlines)
      as (m & -> & Hr & Hc & _ & Hin).
    exists m. split_and!; try done.
    intros line r c v Hl He. split; [by eapply Hin|].
    rewrite Hr. simpl. lia.
  - intros ls Hls ->. unfold __init__. destruct path as [|c0 p]; [done|].
    unfold load_from_file, open. rewrite Hfs.
    cbn [mbind result_bind mret result_ret].
    rewrite for_loop_readlines_join_any, for_loop_rendered; [|done|].
    + eexists. split; [reflexivity|]. cbn [rows cols data set_data].
      split_and!; try done.
      intros before row col val after Hin. split; [|lia].
      apply (foldl_insert_member _ _ _ val).
      apply (list_elem_of_omap line_entry).
      by exists (EntryLine before (row, col, val) after).
    + apply Forall_fmap. eapply Forall_impl; [exact Hls|].
      intros l Hl. by apply render_line_no_ending.
Qed.

(** ** Where the loader departs from the specification *)

(** C3. Loading a file with an entry line whose value is 0 returns a
    matrix that stores the zero: the loader writes into the dictionary
    directly, not through [set_element]. *)
Theorem load_stores_zero :
  let text := join [LF] [lit "rows=1"; lit "cols=1"; lit "(0, 0, 0)"] in
  ∃ m, __init__ (λ _, Some text) (Some (lit "matrix.txt")) 0 0 = inr m
    ∧ data m !! (0, 0) = Some 0
    ∧ ¬ no_zero_entries m.
Proof.
  eexists. split_and!.
  - by vm_compute.
  - by vm_compute.
  - intros H. by apply (H (0, 0) 0).
Qed.

(** C5. The line [rows=5=7] is not blank and has none of the three shapes
    of the grammar, and the file that consists of it loads without error:
    only the field between the first and the second [=] is read. *)
Theorem load_accepts_malformed_rows_line :
  let line := lit "rows=5=7" in
  strip line ≠ []
  ∧ spec_line_shape (strip line) = false
  ∧ __init__ (λ _, Some line) (Some (lit "matrix.txt")) 0 0
    = inr (mkSparseMatrix 5 0 ∅).
Proof. split_and!; by vm_compute. Qed.

(** ** The operations on the store *)

Section store.
Implicit Types (σ : Ref.store) (l : Ref.loc) (o : Ref.object) (d : gmap (Z * Z) Z).

Lemma bind_run {A B} (x : Ref.M A) (f : A → Ref.M B) σ σ' a :
  x σ = (σ', Ref.Return a) → (x ≫= f) σ = f a σ'.
Proof. unfold mbind, Ref.M_bind. by intros ->. Qed.

Lemma read_object_run σ l o :
  Ref.objects σ !! l = Some o → Ref.read_object l σ = (σ, Ref.Return o).
Proof. unfold Ref.read_object. by intros ->. Qed.

Lemma read_dict_run σ l d :
  Ref.dicts σ !! l = Some d → Ref.read_dict l σ = (σ, Ref.Return d).
Proof. unfold Ref.read_dict. by intros ->. Qed.

Lemma write_dict_run σ l d d' :
  Ref.dicts σ !! l = Some d →
  Ref.write_dict l d' σ = (Ref.Store (Ref.objects σ) (<[l := d']> (Ref.dicts σ)), Ref.Return ()).
Proof. unfold Ref.write_dict. by intros ->. Qed.

Lemma write_object_run σ l o o' :
  Ref.objects σ !! l = Some o →
  Ref.write_object l o' σ = (Ref.Store (<[l := o']> (Ref.objects σ)) (Ref.dicts σ), Ref.Return ()).
Proof. unfold Ref.write_object. by intros ->. Qed.

Lemma fresh_dict_None σ : Ref.dicts σ !! fresh (dom (Ref.dicts σ)) = None.
Proof. apply not_elem_of_dom, is_fresh. Qed.

Lemma fresh_object_None σ : Ref.objects σ !! fresh (dom (Ref.objects σ)) = None.
Proof. apply not_elem_of_dom, is_fresh. Qed.

Lemma get_element_run σ self o d row col :
  Ref.objects σ !! self = Some o → Ref.dicts σ !! Ref.obj_data o = Some d →
  Ref.get_element self row col σ
  = (σ, Ref.Return (get_element (mkSparseMatrix (Ref.obj_rows o) (Ref.obj_cols o) d) row col)).
Proof.
  intros Ho Hd. unfold Ref.get_element.
  rewrite (bind_run _ _ _ _ _ (read_object_run _ _ _ Ho)).
  by rewrite (bind_run _ _ _ _ _ (read_dict_run _ _ _ Hd)).
Qed.

Lemma set_element_run σ self o d row col value :
  Ref.objects σ !! self = Some o → Ref.dicts σ !! Ref.obj_data o = Some d →
  Ref.set_element self row col value σ
  = (Ref.Store (Ref.objects σ)
           (<[Ref.obj_data o :=
                data (set_element (mkSparseMatrix (Ref.obj_rows o) (Ref.obj_cols o) d)
                                  row col value)]> (Ref.dicts σ)),
     Ref.Return ()).
Proof.
  intros Ho Hd. unfold Ref.set_element, set_element.
  rewrite (bind_run _ _ _ _ _ (read_object_run _ _ _ Ho)).
  rewrite (bind_run _ _ _ _ _ (read_dict_run _ _ _ Hd)).
  cbn [data]. destruct (decide (value ≠ 0)).
  - by rewrite (write_dict_run _ _ _ _ Hd).
  - destruct (decide ((row, col) ∈ dom d)).
    + by rewrite (write_dict_run _ _ _ _ Hd).
    + cbn. rewrite insert_id by done. by destruct σ.
Qed.

(** A loop whose iterations only update the dictionary at [dl]. *)
Lemma for_each_run {A} (its : list A) (body : A → Ref.M unit)
    (step : gmap (Z * Z) Z → A → gmap (Z * Z) Z) (objs : gmap Ref.loc Ref.object)
    (ds : gmap Ref.loc (gmap (Z * Z) Z)) dl d :
  (∀ x d', body x (Ref.Store objs (<[dl := d']> ds))
           = (Ref.Store objs (<[dl := step d' x]> ds), Ref.Return ())) →
  Ref.for_each its body (Ref.Store objs (<[dl := d]> ds))
  = (Ref.Store objs (<[dl := foldl step d its]> ds), Ref.Return ()).
Proof.
  intros Hbody. revert d. induction its as [|x its IH]; intros d; [done|].
  cbn [Ref.for_each foldl].
  rewrite (bind_run _ _ _ _ _ (Hbody x d)). apply IH.
Qed.
End store.

Section store_operations.
Implicit Types (σ : Ref.store) (l : Ref.loc) (o : Ref.object) (d : gmap (Z * Z) Z).

Lemma init_run σ rows cols :
  Ref.__init__ rows cols σ
  = (Ref.Store (<[fresh (dom (Ref.objects σ)) :=
                    Ref.Obj rows cols (fresh (dom (Ref.dicts σ)))]> (Ref.objects σ))
               (<[fresh (dom (Ref.dicts σ)) := ∅]> (Ref.dicts σ)),
     Ref.Return (fresh (dom (Ref.objects σ)))).
Proof. reflexivity. Qed.

Lemma items_run σ obj o d :
  Ref.objects σ !! obj = Some o → Ref.dicts σ !! Ref.obj_data o = Some d →
  Ref.items obj σ = (σ, Ref.Return (map_to_list d)).
Proof.
  intros Ho Hd. unfold Ref.items.
  rewrite (bind_run _ _ _ _ _ (read_object_run _ _ _ Ho)).
  by rewrite (bind_run _ _ _ _ _ (read_dict_run _ _ _ Hd)).
Qed.

Lemma copy_data_run σ result self r s d :
  Ref.objects σ !! result = Some r → Ref.objects σ !! self = Some s →
  Ref.dicts σ !! Ref.obj_data s = Some d →
  Ref.copy_data result self σ
  = (Ref.Store (<[result := Ref.Obj (Ref.obj_rows r) (Ref.obj_cols r)
                              (fresh (dom (Ref.dicts σ)))]> (Ref.objects σ))
               (<[fresh (dom (Ref.dicts σ)) := d]> (Ref.dicts σ)),
     Ref.Return ()).
Proof.
  intros Hr Hs Hd. unfold Ref.copy_data.
  rewrite (bind_run _ _ _ _ _ (read_object_run _ _ _ Hs)).
  rewrite (bind_run _ _ _ _ _ (read_dict_run _ _ _ Hd)).
  unfold mbind at 1, Ref.M_bind at 1, Ref.new_dict at 1. cbv beta iota zeta.
  erewrite bind_run; [|by apply read_object_run].
  by erewrite write_object_run.
Qed.

(** The dictionary-level step of the loops of [add] and [subtract]. *)
Let update (op : Z → Z → Z) (nr nc : Z) d (x : Z * Z * Z) :=
  let '((row, col), val) := x in
  let m := mkSparseMatrix nr nc d in
  data (set_element m row col (op (get_element m row col) val)).

Lemma update_body_run (op : Z → Z → Z) objs ds result nr nc dl d row col val :
  objs !! result = Some (Ref.Obj nr nc dl) →
  (cur ← Ref.get_element result row col;
   Ref.set_element result row col (op cur val))
    (Ref.Store objs (<[dl := d]> ds))
  = (Ref.Store objs (<[dl := update op nr nc d (row, col, val)]> ds),
     Ref.Return ()).
Proof.
  intros Hres.
  erewrite bind_run; [|by eapply get_element_run; [done|apply lookup_insert_eq]].
  erewrite set_element_run; [|done|apply lookup_insert_eq].
  cbn. by rewrite insert_insert_eq.
Qed.

Lemma update_foldl (op : Z → Z → Z) nr nc d its :
  mkSparseMatrix nr nc (foldl (update op nr nc) d its)
  = foldl (λ result '((row, col), val),
             set_element result row col (op (get_element result row col) val))
          (mkSparseMatrix nr nc d) its.
Proof.
  revert d. induction its as [|[[row col] val] its IH]; intros d; [done|].
  cbn [foldl]. rewrite IH. f_equal. unfold update.
  set (m := mkSparseMatrix nr nc d).
  set (m' := set_element m row col _).
  assert (rows m' = nr) as Hr by apply rows_set_element.
  assert (cols m' = nc) as Hc by apply cols_set_element.
  destruct m'. simpl in *. by subst.
Qed.

Lemma fresh_ne {A} (m : gmap Ref.loc A) l x :
  m !! l = Some x → fresh (dom m) ≠ l.
Proof.
  intros Hl Heq. pose proof (is_fresh (dom m)) as Hf.
  rewrite Heq in Hf. apply Hf, elem_of_dom. eauto.
Qed.

Lemma lookup_insert_fresh {A} (m : gmap Ref.loc A) l x y :
  m !! l = Some x → <[fresh (dom m) := y]> m !! l = Some x.
Proof. intros Hl. rewrite lookup_insert_ne; [done|]. by eapply fresh_ne. Qed.

(** What [add] and [subtract] do once the dimensions are checked: the
    result is a new instance whose new dictionary holds what the
    value-level loop computes. *)
Lemma update_run (op : Z → Z → Z) σ self other s o da db :
  Ref.objects σ !! self = Some s → Ref.objects σ !! other = Some o →
  Ref.dicts σ !! Ref.obj_data s = Some da →
  Ref.dicts σ !! Ref.obj_data o = Some db →
  let l0 := fresh (dom (Ref.dicts σ)) in
  let l1 := fresh (dom (<[l0 := ∅]> (Ref.dicts σ))) in
  let res := fresh (dom (Ref.objects σ)) in
  let m := foldl (λ result '((row, col), val),
                    set_element result row col
                                (op (get_element result row col) val))
                 (mkSparseMatrix (Ref.obj_rows s) (Ref.obj_cols s) da)
                 (map_to_list db) in
  (result ← Ref.__init__ (Ref.obj_rows s) (Ref.obj_cols s);
   Ref.copy_data result self;;
   its ← Ref.items other;
   Ref.for_each its (λ '((row, col), val),
     cur ← Ref.get_element result row col;
     Ref.set_element result row col (op cur val));;
   mret result) σ
  = (Ref.Store
       (<[res := Ref.Obj (Ref.obj_rows s) (Ref.obj_cols s) l1]> (Ref.objects σ))
       (<[l1 := data m]> (<[l0 := ∅]> (Ref.dicts σ))),
     Ref.Return res).
Proof.
  intros Hs Ho Hda Hdb l0 l1 res m.
  rewrite (bind_run _ _ _ _ _ (init_run σ _ _)). fold l0 res.
  erewrite bind_run; last first.
  { eapply (copy_data_run _ res self); cbn [Ref.objects Ref.dicts].
    - apply lookup_insert_eq.
    - by apply lookup_insert_fresh.
    - by apply lookup_insert_fresh. }
  cbn [Ref.objects Ref.dicts Ref.obj_rows Ref.obj_cols]. fold l1.
  rewrite insert_insert_eq.
  erewrite bind_run; last first.
  { eapply (items_run _ other o db); cbn [Ref.objects Ref.dicts].
    - by apply lookup_insert_fresh.
    - apply lookup_insert_fresh. by apply lookup_insert_fresh. }
  erewrite bind_run; last first.
  { apply (for_each_run _ _ (update op (Ref.obj_rows s) (Ref.obj_cols s))).
    intros [[row col] val] d'. apply update_body_run, lookup_insert_eq. }
  unfold m. by rewrite <- update_foldl.
Qed.

Lemma foldl_data {A} (f : SparseMatrix → A → SparseMatrix) nr nc d (its : list A) :
  (∀ m x, rows (f m x) = rows m ∧ cols (f m x) = cols m) →
  mkSparseMatrix nr nc
    (foldl (λ d x, data (f (mkSparseMatrix nr nc d) x)) d its)
  = foldl f (mkSparseMatrix nr nc d) its.
Proof.
  intros Hf. revert d. induction its as [|x its IH]; intros d; [done|].
  cbn [foldl]. rewrite IH. f_equal.
  destruct (Hf (mkSparseMatrix nr nc d) x) as [Hr Hc].
  destruct (f (mkSparseMatrix nr nc d) x). simpl in *. by subst.
Qed.

(** What [multiply] does once the dimensions are checked. *)
Lemma product_run σ self other s o da db :
  Ref.objects σ !! self = Some s → Ref.objects σ !! other = Some o →
  Ref.dicts σ !! Ref.obj_data s = Some da →
  Ref.dicts σ !! Ref.obj_data o = Some db →
  let l0 := fresh (dom (Ref.dicts σ)) in
  let res := fresh (dom (Ref.objects σ)) in
  let b := mkSparseMatrix (Ref.obj_rows o) (Ref.obj_cols o) db in
  let m := foldl (λ result '((r1, c1), v1),
                    foldl (λ result c2,
                             let v2 := get_element b c1 c2 in
                             if decide (v2 ≠ 0) then
                               let current_val := get_element result r1 c2 in
                               set_element result r1 c2 (current_val + v1 * v2)
                             else result)
                          result (range (cols b)))
                 (mkSparseMatrix (Ref.obj_rows s) (Ref.obj_cols o) ∅)
                 (map_to_list da) in
  (result ← Ref.__init__ (Ref.obj_rows s) (Ref.obj_cols o);
   its ← Ref.items self;
   Ref.for_each its (λ '((r1, c1), v1),
     o ← Ref.read_object other;
     Ref.for_each (range (Ref.obj_cols o)) (λ c2,
       v2 ← Ref.get_element other c1 c2;
       if decide (v2 ≠ 0) then
         current_val ← Ref.get_element result r1 c2;
         Ref.set_element result r1 c2 (current_val + v1 * v2)
       else mret ()));;
   mret result) σ
  = (Ref.Store
       (<[res := Ref.Obj (Ref.obj_rows s) (Ref.obj_cols o) l0]> (Ref.objects σ))
       (<[l0 := data m]> (Ref.dicts σ)),
     Ref.Return res).
Proof.
  intros Hs Ho Hda Hdb l0 res b m.
  rewrite (bind_run _ _ _ _ _ (init_run σ _ _)). fold l0 res.
  erewrite bind_run; last first.
  { eapply (items_run _ self s da); cbn [Ref.objects Ref.dicts];
      by apply lookup_insert_fresh. }
  set (nr := Ref.obj_rows s). set (nc := Ref.obj_cols o).
  set (inner := λ (r1 c1 v1 : Z) (result : SparseMatrix) (c2 : Z),
         let v2 := get_element b c1 c2 in
         if decide (v2 ≠ 0) then
           let current_val := get_element result r1 c2 in
           set_element result r1 c2 (current_val + v1 * v2)
         else result).
  set (outer := λ (result : SparseMatrix) (x : Z * Z * Z),
         let '((r1, c1), v1) := x in
         foldl (inner r1 c1 v1) result (range (cols b))).
  assert (Hinner : ∀ r1 c1 v1 m' c2,
            rows (inner r1 c1 v1 m' c2) = rows m'
            ∧ cols (inner r1 c1 v1 m' c2) = cols m').
  { intros. unfold inner. cbv zeta. case_decide; [|done].
    by rewrite rows_set_element, cols_set_element. }
  assert (Houter : ∀ m' x, rows (outer m' x) = rows m' ∧ cols (outer m' x) = cols m').
  { intros m' [[r1 c1] v1]. apply (inner_loop_dims b). }
  erewrite bind_run; last first.
  { apply (for_each_run _ _
             (λ d x, data (outer (mkSparseMatrix nr nc d) x))).
    intros [[r1 c1] v1] d'.
    erewrite bind_run; last first.
    { apply read_object_run. cbn [Ref.objects]. by apply lookup_insert_fresh. }
    assert (data (outer (mkSparseMatrix nr nc d') (r1, c1, v1))
            = foldl (λ d c2, data (inner r1 c1 v1 (mkSparseMatrix nr nc d) c2))
                    d' (range nc)) as ->.
    { change (outer (mkSparseMatrix nr nc d') (r1, c1, v1))
        with (foldl (inner r1 c1 v1) (mkSparseMatrix nr nc d') (range nc)).
      by rewrite <- (foldl_data (inner r1 c1 v1)) by apply Hinner. }
    apply (for_each_run _ _
             (λ d c2, data (inner r1 c1 v1 (mkSparseMatrix nr nc d) c2))).
    { intros c2 d''.
      erewrite bind_run; last first.
      { eapply (get_element_run _ other o db); cbn [Ref.objects Ref.dicts].
        - by apply lookup_insert_fresh.
        - rewrite lookup_insert_ne; [done|]. by eapply fresh_ne. }
      unfold inner. cbv zeta. fold b.
      destruct (decide (get_element b c1 c2 ≠ 0)).
      + apply (update_body_run (λ cur _, cur + v1 * get_element b c1 c2)
                               _ _ res nr nc l0 d'' r1 c2 0).
        apply lookup_insert_eq.
      + reflexivity. } }
  fold (foldl outer (mkSparseMatrix nr nc ∅) (map_to_list da)) in m.
  cbn. unfold m. by rewrite <- (foldl_data outer) by apply Houter.
Qed.
End store_operations.

(** ** The operations build a new instance and leave the operands alone *)

Section ownership.
Implicit Types (σ : Ref.store) (l : Ref.loc) (o : Ref.object) (d : gmap (Z * Z) Z).

Lemma add_run σ self other s o da db :
  Ref.objects σ !! self = Some s → Ref.objects σ !! other = Some o →
  Ref.dicts σ !! Ref.obj_data s = Some da →
  Ref.dicts σ !! Ref.obj_data o = Some db →
  Ref.add self other σ
  = match add (mkSparseMatrix (Ref.obj_rows s) (Ref.obj_cols s) da)
              (mkSparseMatrix (Ref.obj_rows o) (Ref.obj_cols o) db) with
    | inl e => (σ, Ref.Raise e)
    | inr m =>
        let l0 := fresh (dom (Ref.dicts σ)) in
        let l1 := fresh (dom (<[l0 := ∅]> (Ref.dicts σ))) in
        (Ref.Store
           (<[fresh (dom (Ref.objects σ)) :=
                Ref.Obj (Ref.obj_rows s) (Ref.obj_cols s) l1]> (Ref.objects σ))
           (<[l1 := data m]> (<[l0 := ∅]> (Ref.dicts σ))),
         Ref.Return (fresh (dom (Ref.objects σ))))
    end.
Proof.
  intros Hs Ho Hda Hdb. unfold Ref.add, add.
  rewrite (bind_run _ _ _ _ _ (read_object_run _ _ _ Hs)).
  rewrite (bind_run _ _ _ _ _ (read_object_run _ _ _ Ho)).
  cbn [rows cols data]. case_decide; [done|].
  by rewrite (update_run Z.add σ self other s o da db).
Qed.

Lemma subtract_run σ self other s o da db :
  Ref.objects σ !! self = Some s → Ref.objects σ !! other = Some o →
  Ref.dicts σ !! Ref.obj_data s = Some da →
  Ref.dicts σ !! Ref.obj_data o = Some db →
  Ref.subtract self other σ
  = match subtract (mkSparseMatrix (Ref.obj_rows s) (Ref.obj_cols s) da)
                   (mkSparseMatrix (Ref.obj_rows o) (Ref.obj_cols o) db) with
    | inl e => (σ, Ref.Raise e)
    | inr m =>
        let l0 := fresh (dom (Ref.dicts σ)) in
        let l1 := fresh (dom (<[l0 := ∅]> (Ref.dicts σ))) in
        (Ref.Store
           (<[fresh (dom (Ref.objects σ)) :=
                Ref.Obj (Ref.obj_rows s) (Ref.obj_cols s) l1]> (Ref.objects σ))
           (<[l1 := data m]> (<[l0 := ∅]> (Ref.dicts σ))),
         Ref.Return (fresh (dom (Ref.objects σ))))
    end.
Proof.
  intros Hs Ho Hda Hdb. unfold Ref.subtract, subtract.
  rewrite (bind_run _ _ _ _ _ (read_object_run _ _ _ Hs)).
  rewrite (bind_run _ _ _ _ _ (read_object_run _ _ _ Ho)).
  cbn [rows cols data]. case_decide; [done|].
  by rewrite (update_run Z.sub σ self other s o da db).
Qed.

Lemma multiply_run σ self other s o da db :
  Ref.objects σ !! self = Some s → Ref.objects σ !! other = Some o →
  Ref.dicts σ !! Ref.obj_data s = Some da →
  Ref.dicts σ !! Ref.obj_data o = Some db →
  Ref.multiply self other σ
  = match multiply (mkSparseMatrix (Ref.obj_rows s) (Ref.obj_cols s) da)
                   (mkSparseMatrix (Ref.obj_rows o) (Ref.obj_cols o) db) with
    | inl e => (σ, Ref.Raise e)
    | inr m =>
        let l0 := fresh (dom (Ref.dicts σ)) in
        (Ref.Store
           (<[fresh (dom (Ref.objects σ)) :=
                Ref.Obj (Ref.obj_rows s) (Ref.obj_cols o) l0]> (Ref.objects σ))
           (<[l0 := data m]> (Ref.dicts σ)),
         Ref.Return (fresh (dom (Ref.objects σ))))
    end.
Proof.
  intros Hs Ho Hda Hdb. unfold Ref.multiply, multiply.
  rewrite (bind_run _ _ _ _ _ (read_object_run _ _ _ Hs)).
  rewrite (bind_run _ _ _ _ _ (read_object_run _ _ _ Ho)).
  cbn [rows cols data]. case_decide; [done|].
  by rewrite (product_run σ self other s o da db).
Qed.

Lemma value_of_Some σ l (m : SparseMatrix) :
  Ref.value_of σ l = Some m ↔
  ∃ o, Ref.objects σ !! l = Some o
       ∧ Ref.dicts σ !! Ref.obj_data o = Some (data m)
       ∧ Ref.obj_rows o = rows m ∧ Ref.obj_cols o = cols m.
Proof.
  unfold Ref.value_of. split.
  - intros H. destruct (Ref.objects σ !! l) as [o|]; [|done]. simpl in H.
    destruct (Ref.dicts σ !! Ref.obj_data o) as [d|] eqn:Hd; [|done].
    injection H as <-. exists o. by split_and!.
  - intros (o & -> & Hd & Hr & Hc). simpl. rewrite Hd. simpl.
    destruct m. simpl in *. by subst.
Qed.
End ownership.

Lemma add_dims a b m : add a b = inr m → rows m = rows a ∧ cols m = cols a.
Proof.
  unfold add. case_decide; [done|]. intros [= <-].
  by rewrite update_loop_rows, update_loop_cols.
Qed.

Lemma subtract_dims a b m :
  subtract a b = inr m → rows m = rows a ∧ cols m = cols a.
Proof.
  unfold subtract. case_decide; [done|]. intros [= <-].
  by rewrite update_loop_rows, update_loop_cols.
Qed.

Lemma multiply_dims a b m :
  multiply a b = inr m → rows m = rows a ∧ cols m = cols b.
Proof.
  unfold multiply. case_decide; [done|]. intros [= <-].
  exact (outer_loop_dims b (range (cols b)) (map_to_list (data a))
                         (mkSparseMatrix (rows a) (cols b) ∅)).
Qed.

Section refinement.
Implicit Types (σ : Ref.store) (a b m : SparseMatrix).

(** The operations on the store compute what the value-level operations
    compute on the values of the operands. *)
Lemma add_refines σ self other a b :
  Ref.value_of σ self = Some a → Ref.value_of σ other = Some b →
  match add a b with
  | inl e => Ref.add self other σ = (σ, Ref.Raise e)
  | inr m => ∃ σ' res, Ref.add self other σ = (σ', Ref.Return res)
                       ∧ Ref.value_of σ' res = Some m
  end.
Proof.
  intros (s & Hs & Hda & Hsr & Hsc)%value_of_Some
         (o & Ho & Hdb & Hor & Hoc)%value_of_Some.
  rewrite (add_run σ self other s o _ _ Hs Ho Hda Hdb).
  rewrite Hsr, Hsc, Hor, Hoc.
  replace (mkSparseMatrix (rows a) (cols a) (data a)) with a by (by destruct a).
  replace (mkSparseMatrix (rows b) (cols b) (data b)) with b by (by destruct b).
  destruct (add a b) as [e|m] eqn:E; [done|].
  do 2 eexists. split; [done|]. apply value_of_Some. eexists.
  cbn [Ref.objects Ref.dicts]. rewrite lookup_insert_eq. split; [done|].
  cbn [Ref.obj_data Ref.obj_rows Ref.obj_cols]. rewrite lookup_insert_eq.
  apply add_dims in E as [-> ->]. done.
Qed.

Lemma subtract_refines σ self other a b :
  Ref.value_of σ self = Some a → Ref.value_of σ other = Some b →
  match subtract a b with
  | inl e => Ref.subtract self other σ = (σ, Ref.Raise e)
  | inr m => ∃ σ' res, Ref.subtract self other σ = (σ', Ref.Return res)
                       ∧ Ref.value_of σ' res = Some m
  end.
Proof.
  intros (s & Hs & Hda & Hsr & Hsc)%value_of_Some
         (o & Ho & Hdb & Hor & Hoc)%value_of_Some.
  rewrite (subtract_run σ self other s o _ _ Hs Ho Hda Hdb).
  rewrite Hsr, Hsc, Hor, Hoc.
  replace (mkSparseMatrix (rows a) (cols a) (data a)) with a by (by destruct a).
  replace (mkSparseMatrix (rows b) (cols b) (data b)) with b by (by destruct b).
  destruct (subtract a b) as [e|m] eqn:E; [done|].
  do 2 eexists. split; [done|]. apply value_of_Some. eexists.
  cbn [Ref.objects Ref.dicts]. rewrite lookup_insert_eq. split; [done|].
  cbn [Ref.obj_data Ref.obj_rows Ref.obj_cols]. rewrite lookup_insert_eq.
  apply subtract_dims in E as [-> ->]. done.
Qed.

Lemma multiply_refines σ self other a b :
  Ref.value_of σ self = Some a → Ref.value_of σ other = Some b →
  match multiply a b with
  | inl e => Ref.multiply self other σ = (σ, Ref.Raise e)
  | inr m => ∃ σ' res, Ref.multiply self other σ = (σ', Ref.Return res)
                       ∧ Ref.value_of σ' res = Some m
  end.
Proof.
  intros (s & Hs & Hda & Hsr & Hsc)%value_of_Some
         (o & Ho & Hdb & Hor & Hoc)%value_of_Some.
  rewrite (multiply_run σ self other s o _ _ Hs Ho Hda Hdb).
  rewrite Hsr, Hsc, Hor, Hoc.
  replace (mkSparseMatrix (rows a) (cols a) (data a)) with a by (by destruct a).
  replace (mkSparseMatrix (rows b) (cols b) (data b)) with b by (by destruct b).
  destruct (multiply a b) as [e|m] eqn:E; [done|].
  do 2 eexists. split; [done|]. apply value_of_Some. eexists.
  cbn [Ref.objects Ref.dicts]. rewrite lookup_insert_eq. split; [done|].
  cbn [Ref.obj_data Ref.obj_rows Ref.obj_cols]. rewrite lookup_insert_eq.
  apply multiply_dims in E as [-> ->]. done.
Qed.
End refinement.

Section fresh_result.
Implicit Types (σ : Ref.store) (s o r : Ref.object).

(** A store that extends [σ] by a new instance with a new dictionary. *)
Lemma fresh_result_frame σ (self other : Ref.loc) s o
    (da db : gmap (Z * Z) Z) r (ds' : gmap Ref.loc (gmap (Z * Z) Z)) :
  Ref.objects σ !! self = Some s → Ref.objects σ !! other = Some o →
  Ref.dicts σ !! Ref.obj_data s = Some da →
  Ref.dicts σ !! Ref.obj_data o = Some db →
  Ref.dicts σ ⊆ ds' → Ref.dicts σ !! Ref.obj_data r = None →
  let res := fresh (dom (Ref.objects σ)) in
  let σ' := Ref.Store (<[res := r]> (Ref.objects σ)) ds' in
  Ref.objects σ' !! self = Some s ∧ Ref.objects σ' !! other = Some o
  ∧ Ref.dicts σ' !! Ref.obj_data s = Some da
  ∧ Ref.dicts σ' !! Ref.obj_data o = Some db
  ∧ ∃ r', Ref.objects σ' !! res = Some r'
      ∧ Ref.objects σ !! res = None ∧ Ref.dicts σ !! Ref.obj_data r' = None
      ∧ Ref.obj_data r' ≠ Ref.obj_data s ∧ Ref.obj_data r' ≠ Ref.obj_data o.
Proof.
  intros Hs Ho Hda Hdb Hsub Hr res σ'. cbn [Ref.objects Ref.dicts σ'].
  split_and!.
  - by apply lookup_insert_fresh.
  - by apply lookup_insert_fresh.
  - by eapply lookup_weaken.
  - by eapply lookup_weaken.
  - exists r. split_and!.
    + apply lookup_insert_eq.
    + apply fresh_object_None.
    + done.
    + congruence.
    + congruence.
Qed.

Lemma dicts_extend_1 σ (d : gmap (Z * Z) Z) :
  Ref.dicts σ ⊆ <[fresh (dom (Ref.dicts σ)) := d]> (Ref.dicts σ).
Proof. apply insert_subseteq, fresh_dict_None. Qed.

Lemma dicts_extend_2 σ (d d' : gmap (Z * Z) Z) :
  let l0 := fresh (dom (Ref.dicts σ)) in
  let l1 := fresh (dom (<[l0 := d]> (Ref.dicts σ))) in
  Ref.dicts σ ⊆ <[l1 := d']> (<[l0 := d]> (Ref.dicts σ))
  ∧ Ref.dicts σ !! l1 = None.
Proof.
  intros l0 l1.
  assert (Hl1 : <[l0 := d]> (Ref.dicts σ) !! l1 = None)
    by apply not_elem_of_dom, is_fresh.
  split.
  - etrans; [apply dicts_extend_1|]. by apply insert_subseteq.
  - apply lookup_insert_None in Hl1 as [? _]. done.
Qed.
End fresh_result.

(** C8. [add], [subtract] and [multiply] leave both operands as they
    were, whether they return or raise the dimension error: the rows, the
    columns and the dictionary of each operand are unchanged. A returned
    result is a new instance, and its dictionary is a new one, distinct
    from the dictionary of either operand. *)
Theorem operations_leave_operands
    (op : Ref.loc → Ref.loc → Ref.M Ref.loc) (σ : Ref.store)
    (self other : Ref.loc) (s o : Ref.object) (da db : gmap (Z * Z) Z) :
  op ∈ [Ref.add; Ref.subtract; Ref.multiply] →
  Ref.objects σ !! self = Some s → Ref.objects σ !! other = Some o →
  Ref.dicts σ !! Ref.obj_data s = Some da →
  Ref.dicts σ !! Ref.obj_data o = Some db →
  ∃ σ' out, op self other σ = (σ', out)
    ∧ Ref.objects σ' !! self = Some s ∧ Ref.objects σ' !! other = Some o
    ∧ Ref.dicts σ' !! Ref.obj_data s = Some da
    ∧ Ref.dicts σ' !! Ref.obj_data o = Some db
    ∧ match out with
      | Ref.Return res =>
          ∃ r, Ref.objects σ' !! res = Some r
            ∧ Ref.objects σ !! res = None
            ∧ Ref.dicts σ !! Ref.obj_data r = None
            ∧ Ref.obj_data r ≠ Ref.obj_data s
            ∧ Ref.obj_data r ≠ Ref.obj_data o
      | Ref.Raise e => DimensionMismatch e ∧ σ' = σ
      | Ref.Stuck => False
      end.
Proof.
  intros Hop Hs Ho Hda Hdb.
  apply elem_of_cons in Hop as [->|Hop];
    [|apply elem_of_cons in Hop as [->|Hop];
      [|apply list_elem_of_singleton in Hop as ->]].
  - rewrite (add_run σ self other s o da db) by done.
    destruct (add _ _) as [e|m] eqn:E.
    + exists σ, (Ref.Raise e). split_and!; try done.
      apply add_raises in E as [_ ->]. by left.
    + do 2 eexists. split; [done|].
      destruct (dicts_extend_2 σ ∅ (data m)) as [Hsub Hnew].
      pose proof (fresh_result_frame σ self other s o da db
                    (Ref.Obj (Ref.obj_rows s) (Ref.obj_cols s) _) _
                    Hs Ho Hda Hdb Hsub Hnew) as H.
      exact H.
  - rewrite (subtract_run σ self other s o da db) by done.
    destruct (subtract _ _) as [e|m] eqn:E.
    + exists σ, (Ref.Raise e). split_and!; try done.
      apply subtract_raises in E as [_ ->]. right; by left.
    + do 2 eexists. split; [done|].
      destruct (dicts_extend_2 σ ∅ (data m)) as [Hsub Hnew].
      pose proof (fresh_result_frame σ self other s o da db
                    (Ref.Obj (Ref.obj_rows s) (Ref.obj_cols s) _) _
                    Hs Ho Hda Hdb Hsub Hnew) as H.
      exact H.
  - rewrite (multiply_run σ self other s o da db) by done.
    destruct (multiply _ _) as [e|m] eqn:E.
    + exists σ, (Ref.Raise e). split_and!; try done.
      apply multiply_raises in E as [_ ->]. right; by right.
    + do 2 eexists. split; [done|].
      pose proof (fresh_result_frame σ self other s o da db
                    (Ref.Obj (Ref.obj_rows s) (Ref.obj_cols o) _) _
                    Hs Ho Hda Hdb (dicts_extend_1 σ (data m))
                    (fresh_dict_None σ)) as H.
      exact H.
Qed.

(** ** Instances of the theorems *)

Lemma set_element_sequence_no_zero_witness :
  let m := mkSparseMatrix 2 2 {[ (0, 0) := 4 ]} in
  let calls := [((0, 1), 5); ((0, 0), 0); ((1, 1), 0); ((0, 1), -5)] in
  no_zero_entries m
  ∧ no_zero_entries
      (foldl (λ m '((row, col), value), set_element m row col value) m calls).
Proof.
  intros m calls.
  assert (Hm : no_zero_entries m) by (apply (bool_decide_unpack _); by vm_compute).
  split; [exact Hm|].
  exact (proj1 (set_element_sequence_no_zero m calls Hm)).
Defined.

Lemma subtract_add_cancel_witness :
  let a := mkSparseMatrix 2 2 {[ (0, 0) := 1 ]} in
  let b := mkSparseMatrix 2 2 (<[(0, 0) := -1]> {[ (1, 1) := 2 ]}) in
  rows a = rows b ∧ cols a = cols b
  ∧ ∃ s res, add a b = inr s ∧ subtract s b = inr res
      ∧ rows res = rows a ∧ cols res = cols a
      ∧ nonzero_entries res = nonzero_entries a.
Proof.
  intros a b. split_and!; [reflexivity|reflexivity|].
  apply (subtract_add_cancel a b); reflexivity.
Defined.

Lemma load_to_string_roundtrip_witness :
  let m := mkSparseMatrix 2 3 (<[(1, 2) := -7]> {[ (0, 1) := 5 ]}) in
  let path := lit "matrix.txt" in
  let fs : filesystem := λ _, Some (to_string m) in
  no_zero_entries m ∧ path ≠ [] ∧ fs path = Some (to_string m)
  ∧ ∃ m', __init__ fs (Some path) 0 0 = inr m'
      ∧ rows m' = rows m ∧ cols m' = cols m
      ∧ nonzero_entries m' = nonzero_entries m
      ∧ data m' = data m.
Proof.
  intros m path fs.
  assert (Hm : no_zero_entries m) by (apply (bool_decide_unpack _); by vm_compute).
  assert (Hpath : path ≠ []) by discriminate.
  split_and!; [exact Hm|exact Hpath|reflexivity|].
  exact (load_to_string_roundtrip fs path m Hm Hpath eq_refl).
Defined.

Lemma load_without_dimension_lines_witness :
  let text :=
    list_ascii_of_string "(0, 1, 5)"
    ++ "010"%char :: list_ascii_of_string "    "
    ++ "010"%char :: list_ascii_of_string "  (2, 3, -4) "
    ++ "010"%char :: list_ascii_of_string "(0, 1, 6)" in
  let path := lit "matrix.txt" in
  let fs : filesystem := λ _, Some text in
  path ≠ [] ∧ fs path = Some text
  ∧ Forall (λ line, strip line = [] ∨ is_Some (entry_fields (strip line)))
           (readlines text)
  ∧ __init__ fs (Some path) 0 0
    = inr (mkSparseMatrix 0 0 (<[(0, 1) := 6]> {[ (2, 3) := -4 ]})).
Proof.
  intros text path fs.
  assert (Hpath : path ≠ []) by discriminate.
  split_and!; [exact Hpath|reflexivity| |].
  { change (readlines text)
      with [list_ascii_of_string "(0, 1, 5)" ++ ["010"%char];
            list_ascii_of_string "    " ++ ["010"%char];
            list_ascii_of_string "  (2, 3, -4) " ++ ["010"%char];
            list_ascii_of_string "(0, 1, 6)"].
    repeat (apply Forall_cons; split;
            [first [left; reflexivity | right; eexists; reflexivity]|]).
    apply Forall_nil_2. }
  destruct (proj2 (load_without_dimension_lines fs path text Hpath eq_refl)
              [EntryLine [] (0, 1, 5) [];
               BlankLine (list_ascii_of_string "    ");
               EntryLine (list_ascii_of_string "  ") (2, 3, -4)
                         (list_ascii_of_string " ");
               EntryLine [] (0, 1, 6) []])
    as (m & -> & Hr & Hc & Hd & _).
  - repeat (apply Forall_cons; split;
            [apply (bool_decide_unpack _); by vm_compute|]).
    apply Forall_nil_2.
  - reflexivity.
  - f_equal. apply SparseMatrix_eq; [exact Hr|exact Hc|].
    rewrite Hd. by vm_compute.
Defined.

Lemma operations_leave_operands_witness :
  let a := Ref.Obj 2 2 1%positive in
  let b := Ref.Obj 2 2 2%positive in
  let da : gmap (Z * Z) Z := {[ (0, 0) := 1 ]} in
  let db : gmap (Z * Z) Z := {[ (0, 0) := -1 ]} in
  let σ := Ref.Store (<[1%positive := a]> {[ 2%positive := b ]})
                     (<[1%positive := da]> {[ 2%positive := db ]}) in
  ∃ σ' out, Ref.add 1%positive 2%positive σ = (σ', out)
    ∧ Ref.objects σ' !! 1%positive = Some a
    ∧ Ref.objects σ' !! 2%positive = Some b
    ∧ Ref.dicts σ' !! Ref.obj_data a = Some da
    ∧ Ref.dicts σ' !! Ref.obj_data b = Some db
    ∧ match out with
      | Ref.Return res =>
          ∃ r, Ref.objects σ' !! res = Some r
            ∧ Ref.objects σ !! res = None
            ∧ Ref.dicts σ !! Ref.obj_data r = None
            ∧ Ref.obj_data r ≠ Ref.obj_data a
            ∧ Ref.obj_data r ≠ Ref.obj_data b
      | Ref.Raise e => DimensionMismatch e ∧ σ' = σ
      | Ref.Stuck => False
      end.
Proof.
  intros a b da db σ.
  apply (operations_leave_operands Ref.add σ 1%positive 2%positive a b da db).
  - apply list_elem_of_here.
  - reflexivity.
  - reflexivity.
  - reflexivity.
  - reflexivity.
Defined.

(* ===================================================================== *)
(** * Part 5: further properties of the class *)
(* ===================================================================== *)

(** ** Accessors *)

Lemma matrix_ext m1 m2 :
  rows m1 = rows m2 → cols m1 = cols m2 →
  no_zero_entries m1 → no_zero_entries m2 →
  (∀ r c, get_element m1 r c = get_element m2 r c) → m1 = m2.
Proof.
  intros Hr Hc H1 H2 Hget. apply SparseMatrix_eq; [done..|].
  by apply no_zero_data_eq.
Qed.

Lemma keys_in_bounds_alt m :
  keys_in_bounds m
  ↔ map_Forall (λ k _, 0 ≤ k.1 < rows m ∧ 0 ≤ k.2 < cols m) (data m).
Proof.
  split.
  - intros H [r c] v Hk. by apply (H r c v).
  - intros H r c v Hk. by apply (H (r, c) v).
Qed.

(** X1. Reading after writing: [get_element] returns the value that the
    last [set_element] gave to the coordinate, zero included, and what was
    there before at any other coordinate; no coordinate is out of range
    for either method, and the dimensions do not change. *)
Theorem get_element_after_set_element (m : SparseMatrix) (r c v r' c' : Z) :
  get_element (set_element m r c v) r' c'
  = (if decide (r = r' ∧ c = c') then v else get_element m r' c')
  ∧ rows (set_element m r c v) = rows m
  ∧ cols (set_element m r c v) = cols m.
Proof.
  split_and!.
  - rewrite get_set_element.
    destruct (decide ((r, c) = (r', c'))) as [Heq|Hne].
    + simplify_eq. by rewrite decide_True.
    + rewrite decide_False; [done|]. intros [-> ->]. done.
  - apply rows_set_element.
  - apply cols_set_element.
Qed.

(** X2. Two [set_element] calls on the same coordinate leave the matrix
    that the second call alone gives; calls on different coordinates can
    be exchanged. *)
Theorem set_element_twice (m : SparseMatrix) (r c v r' c' v' : Z) :
  set_element (set_element m r c v) r c v' = set_element m r c v'
  ∧ ((r, c) ≠ (r', c') →
     set_element (set_element m r c v) r' c' v'
     = set_element (set_element m r' c' v') r c v).
Proof.
  split.
  - apply SparseMatrix_eq.
    + by rewrite !rows_set_element.
    + by rewrite !cols_set_element.
    + apply map_eq. intros k. rewrite !lookup_data_set_element.
      by case_decide.
  - intros Hne. apply SparseMatrix_eq.
    + by rewrite !rows_set_element.
    + by rewrite !cols_set_element.
    + apply map_eq. intros k. rewrite !lookup_data_set_element.
      repeat case_decide; congruence.
Qed.

(** ** [add] and [subtract] *)

Lemma update_items_data (op : Z → Z → Z) (d : gmap (Z * Z) Z) m k :
  data (foldl (λ result '((row, col), val),
                 set_element result row col (op (get_element result row col) val))
              m (map_to_list d)) !! k
  = match d !! k with
    | Some v =>
        let x := op (default 0 (data m !! k)) v in
        if decide (x ≠ 0) then Some x else None
    | None => data m !! k
    end.
Proof.
  rewrite update_loop_data by apply NoDup_fst_map_to_list.
  by rewrite list_to_map_to_list.
Qed.

Lemma update_items_bounds (op : Z → Z → Z) (a b : SparseMatrix) :
  rows a = rows b → cols a = cols b →
  keys_in_bounds a → keys_in_bounds b →
  keys_in_bounds
    (foldl (λ result '((row, col), val),
              set_element result row col (op (get_element result row col) val))
           (mkSparseMatrix (rows a) (cols a) (data a)) (map_to_list (data b))).
Proof.
  intros Hr Hc Ha Hb r c v.
  rewrite update_loop_rows, update_loop_cols, update_items_data. cbn [rows cols data].
  destruct (data b !! (r, c)) as [w|] eqn:E.
  - intros _. rewrite Hr, Hc. by apply (Hb r c w).
  - apply Ha.
Qed.

(** X3. [add] and [subtract] keep the invariants of the data model: the
    result stores no zero when the left operand stores none (whatever the
    right operand stores), and its keys are within its bounds when those
    of both operands are. *)
Theorem add_subtract_keep_invariants (a b m : SparseMatrix) :
  add a b = inr m ∨ subtract a b = inr m →
  (no_zero_entries a → no_zero_entries m)
  ∧ (keys_in_bounds a → keys_in_bounds b → keys_in_bounds m).
Proof.
  intros [H|H].
  - unfold add in H. case_decide as Hd; [done|]. injection H as <-.
    split.
    + intros Ha. by apply update_loop_no_zero.
    + intros Ha Hb. apply (update_items_bounds Z.add); [| |done..].
      * destruct (decide (rows a = rows b)); [done|]. tauto.
      * destruct (decide (cols a = cols b)); [done|]. tauto.
  - unfold subtract in H. case_decide as Hd; [done|]. injection H as <-.
    split.
    + intros Ha. by apply update_loop_no_zero.
    + intros Ha Hb. apply (update_items_bounds Z.sub); [| |done..].
      * destruct (decide (rows a = rows b)); [done|]. tauto.
      * destruct (decide (cols a = cols b)); [done|]. tauto.
Qed.

Lemma add_subtract_keep_invariants_witness :
  let a := mkSparseMatrix 2 2 (<[(0, 0) := 1]> {[ (1, 1) := 4 ]}) in
  let b := mkSparseMatrix 2 2 (<[(0, 0) := -1]> {[ (0, 1) := 0 ]}) in
  ∃ m, add a b = inr m ∧ no_zero_entries m.
Proof.
  intros a b. eexists. split; [reflexivity|].
  eapply (add_subtract_keep_invariants a b); [left; reflexivity|].
  apply (bool_decide_unpack _). by vm_compute.
Defined.

(** X5. On operands of equal dimensions that store no zero, [add] is
    commutative. *)
Theorem add_commutative (a b : SparseMatrix) :
  rows a = rows b → cols a = cols b →
  no_zero_entries a → no_zero_entries b →
  add a b = add b a.
Proof.
  intros Hr Hc Ha Hb.
  destruct (add_unfold_ok a b Hr Hc) as (m1 & -> & Hr1 & Hc1 & Hz1 & Hg1).
  destruct (add_unfold_ok b a) as (m2 & -> & Hr2 & Hc2 & Hz2 & Hg2); [done..|].
  f_equal. apply matrix_ext; [congruence|congruence|auto|auto|].
  intros r c. rewrite Hg1, Hg2. lia.
Qed.

Lemma add_commutative_witness :
  let a := mkSparseMatrix 2 2 (<[(0, 0) := 1]> {[ (1, 1) := 4 ]}) in
  let b := mkSparseMatrix 2 2 (<[(0, 0) := -1]> {[ (0, 1) := 3 ]}) in
  add a b = add b a.
Proof.
  intros a b. apply (add_commutative a b); [reflexivity|reflexivity|..];
    apply (bool_decide_unpack _); by vm_compute.
Defined.

(** X6. On operands of equal dimensions, [add] is associative as soon as
    the leftmost operand stores no zero. *)
Theorem add_associative (a b c : SparseMatrix) :
  rows a = rows b → cols a = cols b → rows b = rows c → cols b = cols c →
  no_zero_entries a →
  (ab ← add a b; add ab c) = (bc ← add b c; add a bc).
Proof.
  intros Hr Hc Hr' Hc' Ha.
  destruct (add_unfold_ok a b Hr Hc) as (ab & -> & Hr1 & Hc1 & Hz1 & Hg1).
  destruct (add_unfold_ok b c Hr' Hc') as (bc & -> & Hr2 & Hc2 & Hz2 & Hg2).
  cbn [mbind result_bind].
  destruct (add_unfold_ok ab c) as (l & -> & Hr3 & Hc3 & Hz3 & Hg3);
    [congruence..|].
  destruct (add_unfold_ok a bc) as (r & -> & Hr4 & Hc4 & Hz4 & Hg4);
    [congruence..|].
  f_equal. apply matrix_ext; [congruence|congruence|auto|auto|].
  intros i j. rewrite Hg3, Hg4, Hg1, Hg2. lia.
Qed.

Lemma add_associative_witness :
  let a := mkSparseMatrix 2 2 (<[(0, 0) := 1]> {[ (1, 1) := 4 ]}) in
  let b := mkSparseMatrix 2 2 (<[(0, 0) := -1]> {[ (0, 1) := 0 ]}) in
  let c := mkSparseMatrix 2 2 {[ (0, 1) := 7 ]} in
  (ab ← add a b; add ab c) = (bc ← add b c; add a bc).
Proof.
  intros a b c. apply (add_associative a b c); try reflexivity.
  apply (bool_decide_unpack _). by vm_compute.
Defined.

(** X7. Subtracting a matrix from itself gives the matrix of the same
    dimensions without any entry, also when the matrix stores zeros. *)
Theorem subtract_self (a : SparseMatrix) :
  subtract a a = inr (mkSparseMatrix (rows a) (cols a) ∅).
Proof.
  unfold subtract. rewrite decide_False by tauto. f_equal.
  apply SparseMatrix_eq.
  - by rewrite update_loop_rows.
  - by rewrite update_loop_cols.
  - apply map_eq. intros k. rewrite (update_items_data Z.sub).
    cbn [data]. rewrite lookup_empty.
    destruct (data a !! k) as [v|]; [|done].
    cbn. rewrite decide_False; [done|]. lia.
Qed.

(** X8. The matrix without entries is neutral for [add] and [subtract] on
    the right, and for [add] on the left when the other operand stores no
    zero. *)
Theorem add_subtract_zero (a : SparseMatrix) :
  let z := mkSparseMatrix (rows a) (cols a) ∅ in
  add a z = inr a ∧ subtract a z = inr a
  ∧ (no_zero_entries a → add z a = inr a).
Proof.
  intros z. split_and!.
  - unfold add. rewrite decide_False by (cbn; tauto).
    cbn [data z]. rewrite map_to_list_empty. by destruct a.
  - unfold subtract. rewrite decide_False by (cbn; tauto).
    cbn [data z]. rewrite map_to_list_empty. by destruct a.
  - intros Ha.
    destruct (add_unfold_ok z a) as (m & -> & Hr & Hc & Hz & Hg); [done..|].
    f_equal. apply matrix_ext; [done|done| |done|].
    + apply Hz. intros k v. cbn. by rewrite lookup_empty.
    + intros r c. rewrite Hg. unfold get_element at 1. cbn.
      by rewrite lookup_empty.
Qed.

(** ** [multiply] *)

Lemma sumZ_plus {A} (f g : A → Z) (l : list A) :
  sumZ ((λ x, f x + g x) <$> l) = sumZ (f <$> l) + sumZ (g <$> l).
Proof.
  induction l as [|x l IH]; [done|].
  rewrite !fmap_cons, !sumZ_cons, IH. lia.
Qed.

Lemma sumZ_scale {A} (k : Z) (f : A → Z) (l : list A) :
  sumZ ((λ x, k * f x) <$> l) = k * sumZ (f <$> l).
Proof.
  induction l as [|x l IH]; [cbn; lia|].
  rewrite !fmap_cons, !sumZ_cons, IH. lia.
Qed.

Lemma sumZ_ext {A} (f g : A → Z) (l : list A) :
  (∀ x, x ∈ l → f x = g x) → sumZ (f <$> l) = sumZ (g <$> l).
Proof.
  intros H. f_equal. apply list_fmap_ext. intros i x Hx. apply H.
  by eapply list_elem_of_lookup_2.
Qed.

Lemma sumZ_swap {A B} (f : A → B → Z) (l1 : list A) (l2 : list B) :
  sumZ ((λ x, sumZ ((λ y, f x y) <$> l2)) <$> l1)
  = sumZ ((λ y, sumZ ((λ x, f x y) <$> l1)) <$> l2).
Proof.
  induction l1 as [|x l1 IH].
  - symmetry. by apply sumZ_zero.
  - rewrite fmap_cons, sumZ_cons, IH, <- sumZ_plus. by apply sumZ_ext.
Qed.

Lemma sumZ_nonzero {A} (f : A → Z) (l : list A) :
  sumZ (f <$> l) ≠ 0 → ∃ x, x ∈ l ∧ f x ≠ 0.
Proof.
  induction l as [|x l IH]; [done|].
  rewrite fmap_cons, sumZ_cons. intros H.
  destruct (decide (f x = 0)) as [Hx|Hx].
  - destruct IH as (y & Hy & Hfy); [lia|]. exists y. split; [by constructor|done].
  - exists x. split; [constructor|done].
Qed.

(** What the result of [multiply] reads, for any operands. *)
Lemma multiply_get (a b m : SparseMatrix) r c :
  multiply a b = inr m →
  get_element m r c
  = sumZ ((λ '((r1, c1), v1),
             if decide (r1 = r)
             then v1 * (if decide (c ∈ range (cols b)) then get_element b c1 c else 0)
             else 0) <$> map_to_list (data a)).
Proof.
  unfold multiply. case_decide; [done|]. intros [= <-].
  rewrite (outer_loop_get b) by apply NoDup_seqZ.
  unfold get_element at 1. cbn. by rewrite lookup_empty.
Qed.

Lemma multiply_no_zero (a b m : SparseMatrix) :
  multiply a b = inr m → no_zero_entries m.
Proof.
  unfold multiply. case_decide; [done|]. intros [= <-].
  apply (outer_loop_no_zero b). intros k v. cbn. by rewrite lookup_empty.
Qed.

Lemma multiply_bounds (a b m : SparseMatrix) :
  multiply a b = inr m → keys_in_bounds a → keys_in_bounds m.
Proof.
  intros Hm Ha r c v Hv.
  pose proof (multiply_no_zero a b m Hm (r, c) v Hv) as Hnz.
  pose proof (multiply_get a b m r c Hm) as Hget.
  unfold get_element at 1 in Hget. rewrite Hv in Hget. cbn in Hget.
  rewrite Hget in Hnz.
  apply sumZ_nonzero in Hnz as ([[r1 c1] v1] & Hin & Hterm).
  apply elem_of_map_to_list in Hin.
  destruct (multiply_dims a b m Hm) as [-> ->].
  cbn in Hterm.
  destruct (decide (r1 = r)) as [->|]; [|done].
  destruct (decide (c ∈ range (cols b))) as [Hc|]; [|lia].
  apply Ha in Hin. unfold range in Hc. apply elem_of_seqZ in Hc. lia.
Qed.

(** X4. Whatever the operands store, the result of [multiply] stores no
    zero; its keys are within its bounds as soon as those of the left
    operand are. *)
Theorem multiply_result_invariants (a b m : SparseMatrix) :
  multiply a b = inr m →
  no_zero_entries m ∧ (keys_in_bounds a → keys_in_bounds m).
Proof.
  intros Hm. split.
  - by eapply multiply_no_zero.
  - by eapply multiply_bounds.
Qed.

Lemma multiply_result_invariants_witness :
  let a := mkSparseMatrix 2 2 (<[(0, 0) := 1]> {[ (0, 1) := 2 ]}) in
  let b := mkSparseMatrix 2 3 (<[(0, 2) := 2]> (<[(1, 2) := -1]> {[ (5, 5) := 0 ]})) in
  ∃ m, multiply a b = inr m ∧ no_zero_entries m ∧ keys_in_bounds m.
Proof.
  intros a b. eexists. split; [reflexivity|].
  destruct (multiply_result_invariants a b _ eq_refl) as [Hz Hb].
  split; [exact Hz|]. apply Hb.
  apply keys_in_bounds_alt, (bool_decide_unpack _). by vm_compute.
Defined.

(** X9. A product with a matrix without entries has no entries, for any
    other operand of compatible shape. *)
Theorem multiply_zero (a b : SparseMatrix) (n : Z) :
  multiply a (mkSparseMatrix (cols a) n ∅) = inr (mkSparseMatrix (rows a) n ∅)
  ∧ multiply (mkSparseMatrix n (rows b) ∅) b = inr (mkSparseMatrix n (cols b) ∅).
Proof.
  split.
  - destruct (multiply a (mkSparseMatrix (cols a) n ∅)) as [e|m] eqn:E.
    { apply multiply_raises in E as [? _]. done. }
    f_equal. destruct (multiply_dims _ _ _ E) as [Hr Hc].
    apply matrix_ext; [done|done|by eapply multiply_no_zero| |].
    + intros k v. cbn. by rewrite lookup_empty.
    + intros r c. rewrite (multiply_get _ _ _ r c E).
      unfold get_element at 2. cbn [data]. rewrite lookup_empty. cbn.
      apply sumZ_zero. intros [[r1 c1] v1] _.
      unfold get_element. cbn [data]. rewrite lookup_empty. cbn.
      repeat case_decide; lia.
  - unfold multiply. rewrite decide_False by (cbn; tauto).
    cbn [data rows cols]. by rewrite map_to_list_empty.
Qed.

Section products.
Implicit Types (a b : SparseMatrix).

Lemma multiply_dense a b :
  cols a = rows b → keys_in_bounds a → keys_in_bounds b →
  ∃ m, multiply a b = inr m
    ∧ rows m = rows a ∧ cols m = cols b
    ∧ no_zero_entries m ∧ keys_in_bounds m
    ∧ ∀ r c, get_element m r c = dense_product a b r c.
Proof.
  intros Hd Ha Hb.
  destruct (multiply_returns a b Hd Ha Hb) as (m & Hm & Hr & Hc & Hz & Hg).
  exists m. split_and!; try done. by eapply multiply_bounds.
Qed.

Lemma add_full a b :
  rows a = rows b → cols a = cols b →
  ∃ m, add a b = inr m
    ∧ rows m = rows a ∧ cols m = cols a
    ∧ (no_zero_entries a → no_zero_entries m)
    ∧ (keys_in_bounds a → keys_in_bounds b → keys_in_bounds m)
    ∧ ∀ r c, get_element m r c = get_element a r c + get_element b r c.
Proof.
  intros Hr Hc.
  destruct (add_unfold_ok a b Hr Hc) as (m & Hm & ? & ? & ? & ?).
  exists m. split_and!; try done.
  intros Ha Hb. unfold add in Hm. rewrite decide_False in Hm by tauto.
  injection Hm as <-. by apply (update_items_bounds Z.add).
Qed.
(** X10. [multiply] distributes over [add], on both sides, for operands
    whose keys are within their bounds. *)
Theorem multiply_add_distributive a b (c' : SparseMatrix) :
  keys_in_bounds a → keys_in_bounds b → keys_in_bounds c' →
  (cols a = rows b → rows b = rows c' → cols b = cols c' →
   (s ← add b c'; multiply a s)
   = (p ← multiply a b; q ← multiply a c'; add p q))
  ∧ (rows a = rows b → cols a = cols b → cols a = rows c' →
     (s ← add a b; multiply s c')
     = (p ← multiply a c'; q ← multiply b c'; add p q)).
Proof.
  intros Ha Hb Hc. split.
  - intros Hd Hr Hcl.
    destruct (add_full b c' Hr Hcl) as (s & -> & Hsr & Hsc & _ & Hsb & Hsg).
    cbn [mbind result_bind].
    destruct (multiply_dense a s) as (l & -> & Hlr & Hlc & Hlz & _ & Hlg);
      [congruence|done|auto|].
    destruct (multiply_dense a b) as (p & -> & Hpr & Hpc & Hpz & _ & Hpg);
      [done..|].
    destruct (multiply_dense a c') as (q & -> & Hqr & Hqc & Hqz & _ & Hqg);
      [congruence|done..|].
    cbn [mbind result_bind].
    destruct (add_full p q) as (t & -> & Htr & Htc & Htz & _ & Htg);
      [congruence..|].
    f_equal. apply matrix_ext; [congruence|congruence|done|auto|].
    intros i j. rewrite Hlg, Htg, Hpg, Hqg. unfold dense_product.
    rewrite <- sumZ_plus. apply sumZ_ext. intros k _. rewrite Hsg. lia.
  - intros Hr Hcl Hd.
    destruct (add_full a b Hr Hcl) as (s & -> & Hsr & Hsc & _ & Hsb & Hsg).
    cbn [mbind result_bind].
    destruct (multiply_dense s c') as (l & -> & Hlr & Hlc & Hlz & _ & Hlg);
      [congruence|auto|done|].
    destruct (multiply_dense a c') as (p & -> & Hpr & Hpc & Hpz & _ & Hpg);
      [done..|].
    destruct (multiply_dense b c') as (q & -> & Hqr & Hqc & Hqz & _ & Hqg);
      [congruence|done..|].
    cbn [mbind result_bind].
    destruct (add_full p q) as (t & -> & Htr & Htc & Htz & _ & Htg);
      [congruence..|].
    f_equal. apply matrix_ext; [congruence|congruence|done|auto|].
    intros i j. rewrite Hlg, Htg, Hpg, Hqg. unfold dense_product.
    rewrite Hsc, <- Hcl, <- sumZ_plus. apply sumZ_ext. intros k _.
    rewrite Hsg. lia.
Qed.

(** X11. [multiply] is associative on operands of compatible shapes whose
    keys are within their bounds. *)
Theorem multiply_associative a b (c' : SparseMatrix) :
  cols a = rows b → cols b = rows c' →
  keys_in_bounds a → keys_in_bounds b → keys_in_bounds c' →
  (p ← multiply a b; multiply p c') = (q ← multiply b c'; multiply a q).
Proof.
  intros Hab Hbc Ha Hb Hc.
  destruct (multiply_dense a b) as (p & -> & Hpr & Hpc & _ & Hpb & Hpg);
    [done..|].
  destruct (multiply_dense b c') as (q & -> & Hqr & Hqc & _ & Hqb & Hqg);
    [done..|].
  cbn [mbind result_bind].
  destruct (multiply_dense p c') as (l & -> & Hlr & Hlc & Hlz & _ & Hlg);
    [congruence|done..|].
  destruct (multiply_dense a q) as (t & -> & Htr & Htc & Htz & _ & Htg);
    [congruence|done..|].
  f_equal. apply matrix_ext; [congruence|congruence|done|done|].
  intros i j. rewrite Hlg, Htg. unfold dense_product. rewrite Hpc.
  transitivity
    (sumZ ((λ k, sumZ ((λ x, get_element a i x * get_element b x k
                             * get_element c' k j) <$> range (cols a)))
             <$> range (cols b))).
  { apply sumZ_ext. intros k _. rewrite Hpg. unfold dense_product.
    rewrite Z.mul_comm, <- sumZ_scale. apply sumZ_ext. intros x _. lia. }
  rewrite sumZ_swap. apply sumZ_ext. intros x _.
  rewrite Hqg. unfold dense_product. rewrite <- sumZ_scale.
  apply sumZ_ext. intros k _. lia.
Qed.
Lemma multiply_add_distributive_witness :
  let a := mkSparseMatrix 2 2 (<[(0, 0) := 1]> {[ (0, 1) := 2 ]}) in
  let b := mkSparseMatrix 2 3 (<[(0, 2) := 2]> {[ (1, 2) := -1 ]}) in
  let c' := mkSparseMatrix 2 3 (<[(0, 2) := -2]> {[ (1, 0) := 5 ]}) in
  (s ← add b c'; multiply a s)
  = (p ← multiply a b; q ← multiply a c'; add p q).
Proof.
  intros a b c'.
  assert (Ha : keys_in_bounds a)
    by (apply keys_in_bounds_alt, (bool_decide_unpack _); by vm_compute).
  assert (Hb : keys_in_bounds b)
    by (apply keys_in_bounds_alt, (bool_decide_unpack _); by vm_compute).
  assert (Hc : keys_in_bounds c')
    by (apply keys_in_bounds_alt, (bool_decide_unpack _); by vm_compute).
  apply (proj1 (multiply_add_distributive a b c' Ha Hb Hc)); reflexivity.
Defined.

Lemma multiply_associative_witness :
  let a := mkSparseMatrix 2 2 (<[(0, 0) := 1]> {[ (0, 1) := 2 ]}) in
  let b := mkSparseMatrix 2 3 (<[(0, 2) := 2]> {[ (1, 2) := -1 ]}) in
  let c' := mkSparseMatrix 3 1 (<[(2, 0) := 3]> {[ (1, 0) := 5 ]}) in
  (p ← multiply a b; multiply p c') = (q ← multiply b c'; multiply a q).
Proof.
  intros a b c'.
  apply (multiply_associative a b c'); [reflexivity|reflexivity|..];
    apply keys_in_bounds_alt, (bool_decide_unpack _); by vm_compute.
Defined.

Lemma set_diagonal_get (l : list Z) (m : SparseMatrix) r c :
  NoDup l →
  get_element (foldl (λ m i, set_element m i i 1) m l) r c
  = if decide (r = c ∧ r ∈ l) then 1 else get_element m r c.
Proof.
  intros Hnd. revert m. induction Hnd as [|i l Hi Hnd IH]; intros m.
  { cbn. rewrite decide_False; [done|]. by intros [_ ?%not_elem_of_nil]. }
  cbn [foldl]. rewrite IH, get_set_element.
  destruct (decide (r = c ∧ r ∈ l)) as [[-> Hin]|Hnin].
  - rewrite decide_True; [done|]. split; [done|by constructor].
  - destruct (decide ((i, i) = (r, c))) as [Heq|Hne].
    + simplify_eq. rewrite decide_True; [done|]. split; [done|constructor].
    + rewrite decide_False; [done|].
      intros [-> [->|?]%elem_of_cons]; tauto.
Qed.

Lemma set_diagonal_dims (l : list Z) (m : SparseMatrix) :
  rows (foldl (λ m i, set_element m i i 1) m l) = rows m
  ∧ cols (foldl (λ m i, set_element m i i 1) m l) = cols m.
Proof.
  revert m. induction l as [|i l IH]; intros m; [done|].
  cbn [foldl]. destruct (IH (set_element m i i 1)) as [-> ->].
  by rewrite rows_set_element, cols_set_element.
Qed.

Lemma set_diagonal_data (l : list Z) (m : SparseMatrix) k v :
  data (foldl (λ m i, set_element m i i 1) m l) !! k = Some v →
  data m !! k = Some v ∨ (v = 1 ∧ k.1 = k.2 ∧ k.1 ∈ l).
Proof.
  revert m. induction l as [|i l IH]; intros m; [by left|].
  cbn [foldl]. intros [H|(-> & Hk & Hin)]%IH.
  - rewrite lookup_data_set_element in H. case_decide as Hik.
    + rewrite decide_True in H by done. simplify_eq. right.
      split_and!; [done|done|constructor].
    + by left.
  - right. split_and!; [done|done|by constructor].
Qed.

Lemma identity_get n r c :
  get_element (identity n) r c = if decide (r = c ∧ 0 ≤ r < n) then 1 else 0.
Proof.
  unfold identity. rewrite set_diagonal_get by apply NoDup_seqZ.
  unfold get_element. cbn [data]. rewrite lookup_empty. cbn.
  destruct (decide (r = c ∧ r ∈ range n)) as [[-> Hin]|Hnin].
  - rewrite decide_True; [done|]. unfold range in Hin.
    apply elem_of_seqZ in Hin. split; [done|lia].
  - rewrite decide_False; [done|]. intros [-> Hr]. apply Hnin.
    split; [done|]. unfold range. apply elem_of_seqZ. lia.
Qed.

Lemma identity_invariants n :
  rows (identity n) = n ∧ cols (identity n) = n
  ∧ no_zero_entries (identity n) ∧ keys_in_bounds (identity n).
Proof.
  unfold identity.
  destruct (set_diagonal_dims (range n) (mkSparseMatrix n n ∅)) as [Hr Hc].
  split_and!; [done|done| |].
  - intros k v [H|(-> & _)]%set_diagonal_data; [|done].
    cbn in H. by rewrite lookup_empty in H.
  - intros r c v [H|(_ & Hk & Hin)]%set_diagonal_data.
    { cbn in H. by rewrite lookup_empty in H. }
    rewrite Hr, Hc. cbn in *. subst c. unfold range in Hin.
    apply elem_of_seqZ in Hin. lia.
Qed.

(** X12. The identity matrix is neutral for [multiply], on both sides, for
    a matrix that stores no zero and whose keys are within its bounds. *)
Theorem multiply_identity a :
  no_zero_entries a → keys_in_bounds a →
  multiply a (identity (cols a)) = inr a
  ∧ multiply (identity (rows a)) a = inr a.
Proof.
  intros Hz Hb.
  assert (Habsent : ∀ r c, ¬ (0 ≤ r < rows a ∧ 0 ≤ c < cols a) →
                           get_element a r c = 0).
  { intros r c Hout. unfold get_element.
    destruct (data a !! (r, c)) as [v|] eqn:E; [|done].
    apply Hb in E. tauto. }
  split.
  - destruct (identity_invariants (cols a)) as (Hir & Hic & Hiz & Hib).
    destruct (multiply_dense a (identity (cols a)))
      as (m & -> & Hr & Hc & Hmz & _ & Hg); [done..|].
    f_equal. apply matrix_ext; [congruence|congruence|done|done|].
    intros r c. rewrite Hg. unfold dense_product.
    rewrite (sumZ_point (λ _, 0)
               (λ k, get_element a r k * get_element (identity (cols a)) k c)
               c (range (cols a)) (NoDup_seqZ _ _)).
    + rewrite (sumZ_zero (λ _ : Z, 0)) by done.
      rewrite identity_get. case_decide as Hin.
      * unfold range in Hin. apply elem_of_seqZ in Hin.
        rewrite decide_True by lia. lia.
      * rewrite Habsent; [done|]. intros [_ Hc']. apply Hin.
        unfold range. apply elem_of_seqZ. lia.
    + intros k Hk. rewrite identity_get, decide_False; [lia|]. tauto.
  - destruct (identity_invariants (rows a)) as (Hir & Hic & Hiz & Hib).
    destruct (multiply_dense (identity (rows a)) a)
      as (m & -> & Hr & Hc & Hmz & _ & Hg); [done..|].
    f_equal. apply matrix_ext; [congruence|congruence|done|done|].
    intros r c. rewrite Hg. unfold dense_product. rewrite Hic.
    rewrite (sumZ_point (λ _, 0)
               (λ k, get_element (identity (rows a)) r k * get_element a k c)
               r (range (rows a)) (NoDup_seqZ _ _)).
    + rewrite (sumZ_zero (λ _ : Z, 0)) by done.
      rewrite identity_get. case_decide as Hin.
      * unfold range in Hin. apply elem_of_seqZ in Hin.
        rewrite decide_True by lia. lia.
      * rewrite Habsent; [done|]. intros [Hr' _]. apply Hin.
        unfold range. apply elem_of_seqZ. lia.
    + intros k Hk. rewrite identity_get, decide_False; [lia|].
      intros [-> _]. done.
Qed.

Lemma multiply_identity_witness :
  let a := mkSparseMatrix 2 3 (<[(0, 0) := 1]> {[ (1, 2) := -4 ]}) in
  multiply a (identity (cols a)) = inr a
  ∧ multiply (identity (rows a)) a = inr a.
Proof.
  intros a. apply (multiply_identity a).
  - apply (bool_decide_unpack _). by vm_compute.
  - apply keys_in_bounds_alt, (bool_decide_unpack _). by vm_compute.
Defined.
End products.

(** ** The loader *)

Section loader.
Implicit Types (s t line text path : str) (self m : SparseMatrix).

Lemma lstrip_head s :
  match lstrip s with [] => True | c :: _ => isspace c = false end.
Proof. induction s as [|c s IH]; simpl; [done|]. by destruct (isspace c) eqn:E. Qed.

Lemma lstrip_decompose s : ∃ p, s = p ++ lstrip s.
Proof.
  induction s as [|c s [p IH]]; simpl; [by exists []|].
  destruct (isspace c); [|by exists []].
  exists (c :: p). simpl. by rewrite <- IH.
Qed.

Lemma trimmed_strip s : trimmed (strip s).
Proof.
  unfold strip, rstrip, trimmed. rewrite reverse_involutive.
  split; [|apply lstrip_head].
  pose proof (lstrip_head s) as Ht. set (t := lstrip s) in *.
  destruct (lstrip_decompose (reverse t)) as [p Hp].
  set (u := lstrip (reverse t)) in *.
  assert (Ht' : t = reverse u ++ reverse p)
    by (by rewrite <- reverse_app, <- Hp, reverse_involutive).
  destruct (reverse u) as [|c r]; [done|].
  rewrite Ht' in Ht. done.
Qed.

Lemma strip_strip s : strip (strip s) = strip s.
Proof. apply strip_trimmed, trimmed_strip. Qed.

Lemma load_line_stripped self line :
  load_line self (strip line) = load_line self line.
Proof. apply load_line_strip, strip_strip. Qed.

(** The stripped lines that are not blank are all that the loop sees. *)
Lemma for_loop_stripped self (lines : list str) :
  for_loop load_line self lines
  = for_loop load_line self (filter (λ l, l ≠ []) (strip <$> lines)).
Proof.
  revert self. induction lines as [|line lines IH]; intros self; [done|].
  rewrite fmap_cons. cbn [for_loop].
  destruct (decide (strip line = [])) as [Hb|Hb].
  - rewrite filter_cons_False by (by intros ?).
    rewrite load_line_blank by done. cbn. apply IH.
  - rewrite filter_cons_True by done. cbn [for_loop].
    rewrite load_line_stripped.
    destruct (load_line self line) as [e|self']; [done|]. cbn. apply IH.
Qed.

Lemma init_load fs c p rows0 cols0 text :
  fs (c :: p) = Some text →
  __init__ fs (Some (c :: p)) rows0 cols0
  = match for_loop load_line (mkSparseMatrix rows0 cols0 ∅) (readlines text) with
    | inl _ => inl (ValueError "Input file has wrong format")
    | inr m => inr m
    end.
Proof. intros Hfs. unfold __init__, load_from_file, open. by rewrite Hfs. Qed.

Lemma startswith_keyword_not_paren line p prefix :
  startswith line (lit (String p prefix)) = true → p ≠ "("%char →
  startswith line (lit "(") = false.
Proof.
  destruct line as [|c line]; [done|]. cbn. intros Hc Hp.
  destruct (Ascii.eqb_spec c p) as [->|]; [|done].
  by rewrite eqb_char_false.
Qed.

(** What one accepted line does to the dictionary and to the dimensions. *)
Lemma load_line_data self line self' :
  load_line self line = inr self' →
  data self' = match entry_fields (strip line) with
               | Some (r, c, v) => <[(r, c) := v]> (data self)
               | None => data self
               end.
Proof.
  unfold load_line, entry_fields.
  destruct (strip line) as [|c0 l0] eqn:Hl.
  { cbn. by intros [= <-]. }
  rewrite <- Hl. rewrite bool_decide_eq_false_2 by (rewrite Hl; done).
  destruct (startswith (strip line) (lit "rows=")) eqn:Hrows.
  { rewrite (startswith_keyword_not_paren _ _ _ Hrows) by done. cbn [andb].
    destruct (index _ _) as [e|f]; [done|]. cbn.
    destruct (int _) as [e|n]; [done|]. cbn. by intros [= <-]. }
  destruct (startswith (strip line) (lit "cols=")) eqn:Hcols.
  { rewrite (startswith_keyword_not_paren _ _ _ Hcols) by done. cbn [andb].
    destruct (index _ _) as [e|f]; [done|]. cbn.
    destruct (int _) as [e|n]; [done|]. cbn. by intros [= <-]. }
  destruct (startswith (strip line) (lit "(") && endswith (strip line) (lit ")"));
    [|done].
  destruct (split "," (slice_1_m1 (strip line)))
    as [|f0 [|f1 [|f2 [|f3 fs]]]]; try done.
  rewrite bool_decide_eq_false_2 by (intros Hlen; by apply Hlen).
  cbn [index lookup list_lookup mbind result_bind mret result_ret option_bind].
  unfold int.
  destruct (py_int (strip f0)) as [r|]; [|done].
  destruct (py_int (strip f1)) as [c|]; [|done].
  destruct (py_int (strip f2)) as [v|]; [|done].
  cbn. by intros [= <-].
Qed.

Lemma load_line_dims self line self' :
  load_line self line = inr self' →
  (startswith (strip line) (lit "rows=") = false → rows self' = rows self)
  ∧ (startswith (strip line) (lit "cols=") = false → cols self' = cols self).
Proof.
  unfold load_line.
  destruct (bool_decide (strip line = [])); [by intros [= <-]|].
  destruct (startswith (strip line) (lit "rows=")) eqn:Hrows.
  { destruct (index _ _) as [e|f]; [done|]. cbn.
    destruct (int _) as [e|n]; [done|]. cbn. intros [= <-]. by split. }
  destruct (startswith (strip line) (lit "cols=")) eqn:Hcols.
  { destruct (index _ _) as [e|f]; [done|]. cbn.
    destruct (int _) as [e|n]; [done|]. cbn. intros [= <-]. by split. }
  destruct (startswith (strip line) (lit "(") && endswith (strip line) (lit ")"));
    [|done].
  destruct (bool_decide _); [done|].
  destruct (index _ 0) as [e|f0]; [done|]. cbn. destruct (int _) as [?|r]; [done|]. cbn.
  destruct (index _ 1) as [e|f1]; [done|]. cbn. destruct (int _) as [?|c]; [done|]. cbn.
  destruct (index _ 2) as [e|f2]; [done|]. cbn. destruct (int _) as [?|v]; [done|]. cbn.
  intros [= <-]. by split.
Qed.

Lemma for_loop_data self (lines : list str) m :
  for_loop load_line self lines = inr m →
  data m = foldl (λ d '(k, v), <[k := v]> d) (data self)
                 (omap (λ line, entry_fields (strip line)) lines).
Proof.
  revert self. induction lines as [|line lines IH]; intros self.
  { by intros [= <-]. }
  cbn [for_loop]. destruct (load_line self line) as [e|self'] eqn:E; [done|].
  cbn [mbind result_bind]. intros Hm. rewrite (IH _ Hm).
  rewrite (load_line_data _ _ _ E).
  change (omap (λ line, entry_fields (strip line)) (line :: lines))
    with (match entry_fields (strip line) with
          | Some y => y :: omap (λ line, entry_fields (strip line)) lines
          | None => omap (λ line, entry_fields (strip line)) lines
          end).
  by destruct (entry_fields (strip line)) as [[[r c] v]|].
Qed.

Lemma for_loop_dims self (lines : list str) m :
  for_loop load_line self lines = inr m →
  (Forall (λ line, startswith (strip line) (lit "rows=") = false) lines →
   rows m = rows self)
  ∧ (Forall (λ line, startswith (strip line) (lit "cols=") = false) lines →
     cols m = cols self).
Proof.
  revert self. induction lines as [|line lines IH]; intros self.
  { by intros [= <-]. }
  cbn [for_loop]. destruct (load_line self line) as [e|self'] eqn:E; [done|].
  cbn [mbind result_bind]. intros Hm.
  destruct (IH _ Hm) as [IHr IHc]. destruct (load_line_dims _ _ _ E) as [Hr Hc].
  split; intros [H1 H2]%Forall_cons.
  - rewrite IHr by done. auto.
  - rewrite IHc by done. auto.
Qed.

Lemma for_loop_fails {S A} (body : S → A → result S) (st : S) (l : list A)
    (x : A) :
  x ∈ l → (∀ st', ∃ e, body st' x = inl e) → ∃ e, for_loop body st l = inl e.
Proof.
  intros Hx Hfail. revert st. induction Hx as [x l|x y l Hx IH]; intros st.
  - cbn [for_loop]. destruct (Hfail st) as [e ->]. by exists e.
  - cbn [for_loop]. destruct (body st y) as [e|st']; [by exists e|].
    cbn [mbind result_bind]. by apply IH.
Qed.

Lemma foldl_insert_keep (its : list (Z * Z * Z)) (d : gmap (Z * Z) Z) k :
  k ∉ its.*1 → foldl (λ d '(k, v), <[k := v]> d) d its !! k = d !! k.
Proof.
  revert d. induction its as [|[k2 v2] its IH]; intros d Hnotin; [done|].
  rewrite fmap_cons in Hnotin. apply not_elem_of_cons in Hnotin as [Hne Hnotin].
  cbn [foldl]. rewrite IH by done. by rewrite lookup_insert_ne.
Qed.

Lemma foldl_insert_last (its1 its2 : list (Z * Z * Z)) (d : gmap (Z * Z) Z) k v :
  k ∉ its2.*1 →
  foldl (λ d '(k, v), <[k := v]> d) d (its1 ++ (k, v) :: its2) !! k = Some v.
Proof.
  intros Hnotin. rewrite foldl_app. cbn [foldl].
  rewrite foldl_insert_keep by done. apply lookup_insert_eq.
Qed.
End loader.

Section loader_properties.
Implicit Types (line text path : str) (self m : SparseMatrix).

(** X13. A constructor call raises nothing but the [ValueError] "Input
    file has wrong format", and only when it is given a non-empty path; it
    raises it whenever the file cannot be opened. *)
Theorem constructor_errors (fs : filesystem) (file_path : option str)
    (rows0 cols0 : Z) :
  (∀ e, __init__ fs file_path rows0 cols0 = inl e →
        e = ValueError "Input file has wrong format"
        ∧ ∃ path, file_path = Some path ∧ path ≠ [])
  ∧ (∀ path, file_path = Some path → path ≠ [] → fs path = None →
       __init__ fs file_path rows0 cols0
       = inl (ValueError "Input file has wrong format")).
Proof.
  split.
  - intros e. unfold __init__. destruct file_path as [[|c p]|]; [done| |done].
    intros He. split; [|by eexists].
    by apply load_from_file_raises in He.
  - intros path -> Hpath Hfs. unfold __init__. destruct path as [|c p]; [done|].
    by apply load_from_file_unreadable.
Qed.

(** X14. One line that is neither blank, nor starts with [rows=] or
    [cols=], nor is an entry line of three integer fields, makes the whole
    load fail, wherever it is in the file and whatever the other lines
    are. *)
Theorem load_rejects_unrecognised_line (fs : filesystem) path text line
    (rows0 cols0 : Z) :
  path ≠ [] → fs path = Some text →
  line ∈ readlines text →
  strip line ≠ [] →
  startswith (strip line) (lit "rows=") = false →
  startswith (strip line) (lit "cols=") = false →
  entry_fields (strip line) = None →
  __init__ fs (Some path) rows0 cols0
  = inl (ValueError "Input file has wrong format").
Proof.
  intros Hpath Hfs Hin Hne Hrows Hcols Hentry.
  destruct path as [|c p]; [done|]. rewrite (init_load _ _ _ _ _ _ Hfs).
  destruct (for_loop_fails load_line (mkSparseMatrix rows0 cols0 ∅)
              (readlines text) line Hin) as [e ->]; [|done].
  intros self. by apply load_line_unrecognised.
Qed.

Lemma load_rejects_unrecognised_line_witness :
  let text := join [LF] [lit "rows=2"; lit "(0, 1, 5)"; lit "(1, 2)"; lit "cols=2"] in
  __init__ (λ _, Some text) (Some (lit "matrix.txt")) 0 0
  = inl (ValueError "Input file has wrong format").
Proof.
  intros text.
  apply (load_rejects_unrecognised_line (λ _, Some text) (lit "matrix.txt")
           text (lit "(1, 2)" ++ [LF]) 0 0); try reflexivity; try discriminate.
  change (readlines text)
    with [lit "rows=2" ++ [LF]; lit "(0, 1, 5)" ++ [LF]; lit "(1, 2)" ++ [LF];
          lit "cols=2"].
  apply list_elem_of_further, list_elem_of_further, list_elem_of_here.
Defined.

(** X15. After a successful load the dictionary is what inserting the
    entries of the file in the order of their lines gives; so the matrix
    reads, at a coordinate, the value of the last entry line for that
    coordinate. *)
Theorem load_last_entry_wins (fs : filesystem) path text m (rows0 cols0 : Z) :
  path ≠ [] → fs path = Some text →
  __init__ fs (Some path) rows0 cols0 = inr m →
  data m = foldl (λ d '(k, v), <[k := v]> d) ∅ (file_entries text)
  ∧ ∀ its1 its2 r c v,
      file_entries text = its1 ++ (r, c, v) :: its2 → (r, c) ∉ its2.*1 →
      data m !! (r, c) = Some v ∧ get_element m r c = v.
Proof.
  intros Hpath Hfs. destruct path as [|c0 p]; [done|].
  rewrite (init_load _ _ _ _ _ _ Hfs).
  destruct (for_loop _ _ _) as [e|m'] eqn:E; [done|]. intros [= ->].
  apply for_loop_data in E. cbn [data] in E. fold (file_entries text) in E.
  split; [done|]. intros its1 its2 r c v Hits Hlast.
  assert (Hv : data m !! (r, c) = Some v).
  { rewrite E, Hits. by apply foldl_insert_last. }
  split; [done|]. unfold get_element. by rewrite Hv.
Qed.

Lemma load_last_entry_wins_witness :
  let text := join [LF] [lit "rows=2"; lit "(0, 1, 5)"; lit "cols=2";
                         lit "(0, 1, 7)"; lit "(1, 1, 3)"] in
  ∃ m, __init__ (λ _, Some text) (Some (lit "matrix.txt")) 0 0 = inr m
       ∧ data m !! (0, 1) = Some 7.
Proof.
  intros text. eexists. split; [reflexivity|].
  refine (proj1 (proj2 (load_last_entry_wins (λ _, Some text) (lit "matrix.txt")
                   text _ 0 0 _ eq_refl eq_refl)
                  [(0, 1, 5)] [(1, 1, 3)] 0 1 7 eq_refl _)).
  - discriminate.
  - by apply (bool_decide_unpack _).
Defined.

(** X16. The dimension lines are optional, each on its own: after a
    successful load of a file without [rows=] line the matrix has the rows
    the constructor was given (0 by default), and likewise for the
    columns. *)
Theorem load_keeps_missing_dimension (fs : filesystem) path text m
    (rows0 cols0 : Z) :
  path ≠ [] → fs path = Some text →
  __init__ fs (Some path) rows0 cols0 = inr m →
  (Forall (λ line, startswith (strip line) (lit "rows=") = false)
          (readlines text) → rows m = rows0)
  ∧ (Forall (λ line, startswith (strip line) (lit "cols=") = false)
            (readlines text) → cols m = cols0).
Proof.
  intros Hpath Hfs. destruct path as [|c0 p]; [done|].
  rewrite (init_load _ _ _ _ _ _ Hfs).
  destruct (for_loop _ _ _) as [e|m'] eqn:E; [done|]. intros [= ->].
  by apply for_loop_dims in E.
Qed.

Lemma load_keeps_missing_dimension_witness :
  let text := join [LF] [lit "cols=4"; lit "(0, 1, 5)"] in
  ∃ m, __init__ (λ _, Some text) (Some (lit "matrix.txt")) 3 0 = inr m
       ∧ rows m = 3.
Proof.
  intros text. eexists. split; [reflexivity|].
  refine (proj1 (load_keeps_missing_dimension (λ _, Some text) (lit "matrix.txt")
                   text _ 3 0 _ eq_refl eq_refl) _).
  - discriminate.
  - change (readlines text) with [lit "cols=4" ++ [LF]; lit "(0, 1, 5)"].
    repeat (apply Forall_cons; split; [reflexivity|]). apply Forall_nil_2.
Defined.

(** X17. The loader sees a text only through its stripped, non-blank
    lines: two files that agree on these load alike, whatever blank lines,
    indentation or trailing spaces they hold. *)
Theorem load_ignores_blank_and_padding (fs1 fs2 : filesystem) path text1 text2
    (rows0 cols0 : Z) :
  fs1 path = Some text1 → fs2 path = Some text2 →
  filter (λ l, l ≠ []) (strip <$> readlines text1)
  = filter (λ l, l ≠ []) (strip <$> readlines text2) →
  __init__ fs1 (Some path) rows0 cols0 = __init__ fs2 (Some path) rows0 cols0.
Proof.
  intros H1 H2 Hlines. destruct path as [|c0 p]; [done|].
  rewrite (init_load _ _ _ _ _ _ H1), (init_load _ _ _ _ _ _ H2).
  by rewrite (for_loop_stripped _ (readlines text1)),
             (for_loop_stripped _ (readlines text2)), Hlines.
Qed.

Lemma load_ignores_blank_and_padding_witness :
  let text1 := join [LF] [lit "rows=2"; lit "cols=2"; lit "(0, 1, 5)"] in
  let text2 := join [LF] [lit ""; lit "  rows=2 "; lit "cols=2"; lit "   ";
                          lit "(0, 1, 5)  "; lit ""] in
  __init__ (λ _, Some text1) (Some (lit "matrix.txt")) 0 0
  = __init__ (λ _, Some text2) (Some (lit "matrix.txt")) 0 0.
Proof.
  intros text1 text2.
  apply (load_ignores_blank_and_padding (λ _, Some text1) (λ _, Some text2)
           (lit "matrix.txt") text1 text2 0 0); reflexivity.
Defined.
End loader_properties.

(** ** Line endings *)

Section line_endings.
Implicit Types (s rest e fin : str) (ls : list str).

Lemma readlines_ending s e rest :
  Forall (λ c, c ≠ LF ∧ c ≠ CR) s →
  e ∈ [[LF]; [CR; LF]; [CR]] →
  match rest with [] => True | c :: _ => c ≠ LF end →
  readlines (s ++ e ++ rest) = (s ++ [LF]) :: readlines rest.
Proof.
  intros Hs He Hrest. induction Hs as [|c s [H1 H2] Hs IH].
  - apply elem_of_cons in He as [->|He]; [done|].
    apply elem_of_cons in He as [->|He]; [done|].
    apply list_elem_of_singleton in He as ->.
    destruct rest as [|c rest]; [done|].
    cbn [app readlines]. change (Ascii.eqb CR CR) with true. cbv iota.
    rewrite (eqb_char_false c LF) by done.
    fold (readlines (c :: rest)). done.
  - cbn [app readlines]. rewrite IH. by rewrite !eqb_char_false.
Qed.

Lemma write_text_app e s t :
  write_text e (s ++ t) = write_text e s ++ write_text e t.
Proof. unfold write_text. apply bind_app. Qed.

Lemma write_text_line e s :
  Forall (λ c, c ≠ LF ∧ c ≠ CR) s → write_text e s = s.
Proof.
  unfold write_text. induction 1 as [|c s [H1 _] Hs IH]; [done|].
  cbn. rewrite eqb_char_false by done. cbn. f_equal. apply IH.
Qed.

Lemma write_text_join e ls :
  Forall clean_line ls → write_text e (join [LF] ls) = join e ls.
Proof.
  induction 1 as [|l ls Hl Hls IH]; [done|].
  destruct ls as [|l' ls].
  - cbn [join]. apply write_text_line, Hl.
  - change (join [LF] (l :: l' :: ls)) with (l ++ [LF] ++ join [LF] (l' :: ls)).
    change (join e (l :: l' :: ls)) with (l ++ e ++ join e (l' :: ls)).
    rewrite !write_text_app, IH, write_text_line by apply Hl.
    do 2 f_equal. unfold write_text. cbn. apply app_nil_r.
Qed.

Lemma join_head e l ls : ∃ t, join e (l :: ls) = l ++ t.
Proof.
  destruct ls as [|l' ls]; [exists []; cbn; by rewrite app_nil_r|].
  by eexists.
Qed.

Lemma for_loop_readlines_endings self ls e fin :
  ls ≠ [] → Forall clean_line ls →
  e ∈ [[LF]; [CR; LF]; [CR]] → fin ∈ [[]; e] →
  for_loop load_line self (readlines (join e ls ++ fin))
  = for_loop load_line self ls.
Proof.
  intros Hne Hls He Hfin. revert self.
  induction Hls as [|l ls Hl Hls IH]; intros self; [done|].
  destruct ls as [|l' ls].
  - cbn [join].
    apply elem_of_cons in Hfin as [->|Hfin].
    + rewrite app_nil_r. destruct Hl as (Hl & _ & Hnl).
      by rewrite readlines_last.
    + apply list_elem_of_singleton in Hfin as ->.
      rewrite <- (app_nil_r e) at 1.
      rewrite readlines_ending; [|apply Hl|done|done].
      cbn [readlines for_loop]. rewrite load_line_LF by done.
      by destruct (load_line self l).
  - change (join e (l :: l' :: ls)) with (l ++ e ++ join e (l' :: ls)).
    rewrite <- !app_assoc.
    rewrite readlines_ending; [|apply Hl|done|].
    + cbn [for_loop]. rewrite load_line_LF by done.
      destruct (load_line self l) as [err|self']; [done|].
      cbn. by apply IH.
    + destruct (join_head e l' ls) as [t ->].
      apply Forall_cons in Hls as [(Hl' & _ & Hnl') _].
      destruct l' as [|c l']; [done|].
      apply Forall_cons in Hnl' as [[? _] _]. done.
Qed.
End line_endings.

Lemma load_to_string_any_ending (fs : filesystem) (path e fin : str)
    (m : SparseMatrix) (rows0 cols0 : Z) :
  path ≠ [] → e ∈ [[LF]; [CR; LF]; [CR]] → fin ∈ [[]; e] →
  fs path = Some (write_text e (to_string m) ++ fin) →
  __init__ fs (Some path) rows0 cols0 = inr m.
Proof.
  intros Hpath He Hfin Hfs. destruct path as [|c p]; [done|].
  rewrite (init_load _ _ _ _ _ _ Hfs).
  assert (Hclean : Forall clean_line
            ((lit "rows=" ++ py_str (rows m))
             :: (lit "cols=" ++ py_str (cols m))
             :: (entry_line <$> sorted (map_to_list (data m))))).
  { apply Forall_cons; split; [apply clean_line_rows|].
    apply Forall_cons; split; [apply clean_line_cols|].
    apply Forall_fmap, Forall_true. apply clean_line_entry. }
  rewrite to_string_lines, write_text_join by done.
  rewrite for_loop_readlines_endings by done.
  cbn [for_loop]. rewrite load_line_rows. cbn [mbind result_bind].
  rewrite load_line_cols. cbn [mbind result_bind].
  rewrite for_loop_entries. cbn [data set_cols set_rows].
  rewrite (foldl_insert_items _ (data m)) by apply sorted_Permutation.
  by destruct m.
Qed.

(** X18. The round trip survives newline translation: for every matrix
    (stored zeros, keys out of bounds and negative dimensions included),
    the text of [to_string] written with LF, CR LF or CR line endings, with
    or without an ending after the last line, loads as that matrix,
    whatever dimensions the constructor is given. *)
Theorem load_to_string_line_endings (fs : filesystem) (path e fin : str)
    (m : SparseMatrix) (rows0 cols0 : Z) :
  path ≠ [] → e ∈ [[LF]; [CR; LF]; [CR]] → fin ∈ [[]; e] →
  fs path = Some (write_text e (to_string m) ++ fin) →
  __init__ fs (Some path) rows0 cols0 = inr m.
Proof.
  intros Hpath He Hfin Hfs.
  by apply (load_to_string_any_ending fs path e fin).
Qed.

Lemma load_to_string_line_endings_witness :
  let m := mkSparseMatrix (-1) 3 (<[(1, 2) := 0]> {[ (0, 7) := 5 ]}) in
  let e := [CR; LF] in
  __init__ (λ _, Some (write_text e (to_string m) ++ e))
           (Some (lit "matrix.txt")) 9 9 = inr m.
Proof.
  intros m e.
  apply (load_to_string_line_endings _ (lit "matrix.txt") e e m 9 9).
  - discriminate.
  - apply list_elem_of_further, list_elem_of_here.
  - apply list_elem_of_further, list_elem_of_here.
  - reflexivity.
Defined.

(** X19. [to_string] is injective: two matrices with the same text are
    the same matrix. *)
Theorem to_string_injective (m1 m2 : SparseMatrix) :
  to_string m1 = to_string m2 → m1 = m2.
Proof.
  intros Heq.
  assert (Hpath : lit "m" ≠ []) by discriminate.
  pose proof (load_to_string (λ _, Some (to_string m1)) (lit "m") m1 0 0
                Hpath eq_refl) as H1.
  pose proof (load_to_string (λ _, Some (to_string m1)) (lit "m") m2 0 0
                Hpath (f_equal Some Heq)) as H2.
  rewrite H1 in H2. by injection H2.
Qed.

Lemma to_string_injective_witness :
  let m := mkSparseMatrix 2 3 {[ (0, 1) := 5 ]} in
  set_element (set_element m 1 1 4) 1 1 0 = m.
Proof.
  intros m. apply to_string_injective. reflexivity.
Defined.

(** ** Saving, and the command-line program *)

Section program.
Implicit Types (pf : platform) (fs : filesystem) (choice path : str)
               (m res : SparseMatrix).

Lemma save_then_load_aux pf fs m path fs' (rows0 cols0 : Z) :
  path ≠ [] → linesep pf ∈ [[LF]; [CR; LF]; [CR]] →
  save_to_file pf fs m path = inr fs' →
  __init__ fs' (Some path) rows0 cols0 = inr m
  ∧ ∀ p, p ≠ path → fs' p = fs p.
Proof.
  intros Hpath Hsep. unfold save_to_file.
  destruct (open_w pf path); [done|]. intros [= <-]. split.
  - apply (load_to_string_any_ending _ path (linesep pf) []); [done|done| |].
    + apply list_elem_of_here.
    + by rewrite bool_decide_eq_true_2, app_nil_r.
  - intros p Hp. by rewrite bool_decide_eq_false_2.
Qed.

(** X20. A matrix saved with [save_to_file] loads back as the same matrix
    from the same path, on a platform whose line separator is LF, CR LF or
    CR, and no other file is changed. *)
Theorem save_then_load pf fs m path fs' (rows0 cols0 : Z) :
  path ≠ [] → linesep pf ∈ [[LF]; [CR; LF]; [CR]] →
  save_to_file pf fs m path = inr fs' →
  __init__ fs' (Some path) rows0 cols0 = inr m
  ∧ ∀ p, p ≠ path → fs' p = fs p.
Proof. apply save_then_load_aux. Qed.

Lemma save_then_load_witness :
  let pf := Platform [CR; LF] (λ _, None) in
  let m := mkSparseMatrix 2 3 (<[(1, 2) := -7]> {[ (0, 1) := 5 ]}) in
  ∃ fs', save_to_file pf (λ _, None) m (lit "result.txt") = inr fs'
    ∧ __init__ fs' (Some (lit "result.txt")) 0 0 = inr m.
Proof.
  intros pf m. eexists. split; [reflexivity|].
  refine (proj1 (save_then_load pf (λ _, None) m (lit "result.txt") _ 0 0
                   _ _ eq_refl)).
  - discriminate.
  - apply list_elem_of_further, list_elem_of_here.
Defined.

Lemma init_raises fs path e :
  __init__ fs (Some path) 0 0 = inl e →
  e = ValueError "Input file has wrong format".
Proof.
  unfold __init__. destruct path as [|c p]; [done|].
  apply load_from_file_raises.
Qed.

Lemma init_missing fs path :
  path ≠ [] → fs path = None →
  __init__ fs (Some path) 0 0 = inl (ValueError "Input file has wrong format").
Proof.
  intros Hpath Hfs. unfold __init__. destruct path as [|c p]; [done|].
  by apply load_from_file_unreadable.
Qed.

(** X21. When one of the two input files is missing, [main] prints the
    format error, not the message about files that were not found,
    whatever the choice typed; it writes no file. *)
Theorem main_missing_input pf fs choice :
  fs matrix1_path = None ∨ fs matrix2_path = None →
  main pf fs (Some choice)
  = (menu ++ print (cross_mark
                    ++ uni (lit " Error: Input file has wrong format")),
     fs, Returns).
Proof.
  intros Hmiss. unfold main, main_try.
  destruct (__init__ fs (Some matrix1_path) 0 0) as [e1|m1] eqn:E1.
  { apply init_raises in E1 as ->. done. }
  destruct Hmiss as [H1|H2].
  { rewrite init_missing in E1 by done. done. }
  by rewrite init_missing.
Qed.

Lemma main_missing_input_witness :
  main (Platform [LF] (λ _, None)) (λ _, None) (Some (lit "1"))
  = (menu ++ print (cross_mark
                    ++ uni (lit " Error: Input file has wrong format")),
     (λ _, None), Returns).
Proof.
  apply (main_missing_input (Platform [LF] (λ _, None)) (λ _, None) (lit "1")).
  left. reflexivity.
Defined.

(** X22. When both input files load, the choice is 1, 2 or 3, the
    operation returns and [result.txt] can be written, [main] prints the
    heading, the result and the success line; afterwards [result.txt]
    loads as the result and no other file has changed. *)
Theorem main_success pf fs choice m1 m2 res
    (op : SparseMatrix → SparseMatrix → result SparseMatrix) (heading : str) :
  (choice, op, heading)
    ∈ [(lit "1", add, lit "Result of Addition:");
       (lit "2", subtract, lit "Result of Subtraction:");
       (lit "3", multiply, lit "Result of Multiplication:")] →
  __init__ fs (Some matrix1_path) 0 0 = inr m1 →
  __init__ fs (Some matrix2_path) 0 0 = inr m2 →
  op m1 m2 = inr res →
  open_w pf (lit "result.txt") = None →
  linesep pf ∈ [[LF]; [CR; LF]; [CR]] →
  ∃ fs',
    main pf fs (Some choice)
    = (menu ++ print (uni (LF :: heading)) ++ print_matrix res
       ++ print ([10%N] ++ check_mark
                 ++ uni (lit " Result written to 'result.txt'")),
       fs', Returns)
    ∧ __init__ fs' (Some (lit "result.txt")) 0 0 = inr res
    ∧ ∀ p, p ≠ lit "result.txt" → fs' p = fs p.
Proof.
  intros Hsel H1 H2 Hop Hw Hsep.
  destruct (save_to_file pf fs res (lit "result.txt")) as [e|fs'] eqn:Hsave.
  { unfold save_to_file in Hsave. by rewrite Hw in Hsave. }
  destruct (save_then_load_aux pf fs res (lit "result.txt") fs' 0 0)
    as [Hload Hframe]; [done..|].
  exists fs'. split; [|done].
  unfold main, main_try. rewrite H1, H2.
  apply elem_of_cons in Hsel as [Hsel|Hsel];
    [|apply elem_of_cons in Hsel as [Hsel|Hsel];
      [|apply list_elem_of_singleton in Hsel]];
    injection Hsel as -> -> ->;
    repeat first [ rewrite bool_decide_eq_true_2 by done
                 | rewrite bool_decide_eq_false_2 by done ];
    rewrite Hop, Hsave; cbn [from_option]; by rewrite app_nil_r, <- !app_assoc.
Qed.
Lemma main_success_witness :
  let pf := Platform [LF] (λ _, None) in
  let fs : filesystem := λ p,
    if bool_decide (p = matrix1_path) then Some (lit "rows=1" ++ LF :: lit "cols=1" ++ LF :: lit "(0, 0, 2)")
    else if bool_decide (p = matrix2_path) then Some (lit "rows=1" ++ LF :: lit "cols=1" ++ LF :: lit "(0, 0, 3)")
    else None in
  let res := mkSparseMatrix 1 1 {[ (0, 0) := 6 ]} in
  ∃ fs',
    main pf fs (Some (lit "3"))
    = (menu ++ print (uni (LF :: lit "Result of Multiplication:"))
       ++ print_matrix res
       ++ print ([10%N] ++ check_mark
                 ++ uni (lit " Result written to 'result.txt'")),
       fs', Returns)
    ∧ __init__ fs' (Some (lit "result.txt")) 0 0 = inr res
    ∧ ∀ p, p ≠ lit "result.txt" → fs' p = fs p.
Proof.
  intros pf fs res.
  apply (main_success pf fs (lit "3")
           (mkSparseMatrix 1 1 {[ (0, 0) := 2 ]})
           (mkSparseMatrix 1 1 {[ (0, 0) := 3 ]}) res multiply
           (lit "Result of Multiplication:")).
  - apply list_elem_of_further, list_elem_of_further, list_elem_of_here.
  - reflexivity.
  - reflexivity.
  - reflexivity.
  - reflexivity.
  - apply list_elem_of_here.
Defined.

(** X23. When both input files load but no result is computed, [main]
    writes no file: for a choice other than 1, 2 or 3 it prints the
    message about the invalid choice, and when the chosen operation raises
    it prints the message of that error. *)
Theorem main_without_result pf fs choice m1 m2 :
  __init__ fs (Some matrix1_path) 0 0 = inr m1 →
  __init__ fs (Some matrix2_path) 0 0 = inr m2 →
  (choice ∉ [lit "1"; lit "2"; lit "3"] →
   main pf fs (Some choice)
   = (menu ++ print (uni (lit "Invalid choice. Please enter 1, 2, or 3.")),
      fs, Returns))
  ∧ ∀ (op : SparseMatrix → SparseMatrix → result SparseMatrix) (msg : string) e,
      (choice, op, msg)
        ∈ [(lit "1", add, "Matrix dimensions must match for addition"%string);
           (lit "2", subtract,
            "Matrix dimensions must match for subtraction"%string);
           (lit "3", multiply,
            "Matrix dimensions do not allow multiplication"%string)] →
      op m1 m2 = inl e →
      main pf fs (Some choice)
      = (menu ++ print (cross_mark ++ uni (lit " Error: ") ++ uni (lit msg)),
         fs, Returns).
Proof.
  intros H1 H2. split.
  - intros Hc. unfold main, main_try. rewrite H1, H2.
    rewrite !bool_decide_eq_false_2; [by rewrite app_nil_r|..];
      intros ->; apply Hc; repeat first [apply list_elem_of_here
                                        | apply list_elem_of_further].
  - intros op msg e Hsel Hop.
    unfold main, main_try. rewrite H1, H2.
    apply elem_of_cons in Hsel as [Hsel|Hsel];
      [|apply elem_of_cons in Hsel as [Hsel|Hsel];
        [|apply list_elem_of_singleton in Hsel]];
      injection Hsel as -> -> ->;
      repeat first [ rewrite bool_decide_eq_true_2 by done
                   | rewrite bool_decide_eq_false_2 by done ];
      rewrite Hop.
    + by apply add_raises in Hop as [_ ->].
    + by apply subtract_raises in Hop as [_ ->].
    + by apply multiply_raises in Hop as [_ ->].
Qed.

Lemma main_without_result_witness :
  let pf := Platform [LF] (λ _, None) in
  let fs : filesystem := λ p,
    if bool_decide (p = matrix1_path) then Some (lit "rows=1" ++ LF :: lit "cols=2")
    else if bool_decide (p = matrix2_path) then Some (lit "rows=1" ++ LF :: lit "cols=1")
    else None in
  main pf fs (Some (lit " 1"))
  = (menu ++ print (uni (lit "Invalid choice. Please enter 1, 2, or 3.")),
     fs, Returns)
  ∧ main pf fs (Some (lit "1"))
    = (menu ++ print (cross_mark ++ uni (lit " Error: ")
                      ++ uni (lit "Matrix dimensions must match for addition")),
       fs, Returns).
Proof.
  intros pf fs.
  pose proof (λ choice, main_without_result pf fs choice
                (mkSparseMatrix 1 2 ∅) (mkSparseMatrix 1 1 ∅) eq_refl eq_refl)
    as H.
  split.
  - apply (proj1 (H (lit " 1"))). by apply (bool_decide_unpack _).
  - apply (proj2 (H (lit "1")) add _
             (ValueError "Matrix dimensions must match for addition")).
    + apply list_elem_of_here.
    + reflexivity.
Defined.

(** X24. When the result is computed but [result.txt] cannot be opened
    for writing, [main] has printed the heading and the result, then
    reports the error and leaves the files as they were; if the error is
    [FileNotFoundError], the report is the message about input files that
    were not found. *)
Theorem main_cannot_save pf fs choice m1 m2 res
    (op : SparseMatrix → SparseMatrix → result SparseMatrix) (heading : str)
    (e : os_error) :
  (choice, op, heading)
    ∈ [(lit "1", add, lit "Result of Addition:");
       (lit "2", subtract, lit "Result of Subtraction:");
       (lit "3", multiply, lit "Result of Multiplication:")] →
  __init__ fs (Some matrix1_path) 0 0 = inr m1 →
  __init__ fs (Some matrix2_path) 0 0 = inr m2 →
  op m1 m2 = inr res →
  open_w pf (lit "result.txt") = Some e →
  main pf fs (Some choice)
  = (menu ++ print (uni (LF :: heading)) ++ print_matrix res
     ++ match e with
        | FileNotFoundError =>
            print (cross_mark
                   ++ uni (lit " One of the input files was not found."))
        | OtherOSError message =>
            print (cross_mark ++ uni (lit " An unexpected error occurred: ")
                   ++ uni message)
        end,
     fs, Returns).
Proof.
  intros Hsel H1 H2 Hop Hw.
  unfold main, main_try. rewrite H1, H2.
  apply elem_of_cons in Hsel as [Hsel|Hsel];
    [|apply elem_of_cons in Hsel as [Hsel|Hsel];
      [|apply list_elem_of_singleton in Hsel]];
    injection Hsel as -> -> ->;
    repeat first [ rewrite bool_decide_eq_true_2 by done
                 | rewrite bool_decide_eq_false_2 by done ];
    rewrite Hop; unfold save_to_file; rewrite Hw;
    cbn [from_option main_except]; destruct e; by rewrite <- !app_assoc.
Qed.

Lemma main_cannot_save_witness :
  let pf := Platform [LF] (λ _, Some FileNotFoundError) in
  let fs : filesystem := λ p,
    if bool_decide (p = matrix1_path) then Some (lit "rows=1" ++ LF :: lit "cols=1")
    else if bool_decide (p = matrix2_path) then Some (lit "rows=1" ++ LF :: lit "cols=1")
    else None in
  main pf fs (Some (lit "2"))
  = (menu ++ print (uni (LF :: lit "Result of Subtraction:"))
     ++ print_matrix (mkSparseMatrix 1 1 ∅)
     ++ print (cross_mark ++ uni (lit " One of the input files was not found.")),
     fs, Returns).
Proof.
  intros pf fs.
  apply (main_cannot_save pf fs (lit "2") (mkSparseMatrix 1 1 ∅)
           (mkSparseMatrix 1 1 ∅) (mkSparseMatrix 1 1 ∅) subtract
           (lit "Result of Subtraction:") FileNotFoundError).
  - apply list_elem_of_further, list_elem_of_here.
  - reflexivity.
  - reflexivity.
  - reflexivity.
  - reflexivity.
Defined.

(** X25. Whatever it is given, [main] changes the files only by a
    successful [save_to_file] of the result of the chosen operation to
    [result.txt]; in every other run the files are as they were. *)
Theorem main_writes_only_result pf fs (stdin : option str) out fs' t :
  main pf fs stdin = (out, fs', t) →
  fs' = fs
  ∨ ∃ choice m1 m2 res,
      stdin = Some choice
      ∧ __init__ fs (Some matrix1_path) 0 0 = inr m1
      ∧ __init__ fs (Some matrix2_path) 0 0 = inr m2
      ∧ (choice = lit "1" ∧ add m1 m2 = inr res
         ∨ choice = lit "2" ∧ subtract m1 m2 = inr res
         ∨ choice = lit "3" ∧ multiply m1 m2 = inr res)
      ∧ save_to_file pf fs res (lit "result.txt") = inr fs'.
Proof.
  unfold main, main_try. destruct stdin as [choice|]; [|left; congruence].
  destruct (__init__ fs (Some matrix1_path) 0 0) as [e1|m1] eqn:E1;
    [left; congruence|].
  destruct (__init__ fs (Some matrix2_path) 0 0) as [e2|m2] eqn:E2;
    [left; congruence|].
  destruct (bool_decide (choice = lit "1")) eqn:C1.
  { apply bool_decide_eq_true in C1 as ->.
    destruct (add m1 m2) as [e|res] eqn:Hop; [left; congruence|].
    destruct (save_to_file pf fs res (lit "result.txt")) as [e|fs''] eqn:Hs;
      [left; congruence|].
    intros [= _ <- _]. right. exists (lit "1"), m1, m2, res.
    split_and!; try done. by left. }
  destruct (bool_decide (choice = lit "2")) eqn:C2.
  { apply bool_decide_eq_true in C2 as ->.
    destruct (subtract m1 m2) as [e|res] eqn:Hop; [left; congruence|].
    destruct (save_to_file pf fs res (lit "result.txt")) as [e|fs''] eqn:Hs;
      [left; congruence|].
    intros [= _ <- _]. right. exists (lit "2"), m1, m2, res.
    split_and!; try done. right; by left. }
  destruct (bool_decide (choice = lit "3")) eqn:C3; [|left; congruence].
  apply bool_decide_eq_true in C3 as ->.
  destruct (multiply m1 m2) as [e|res] eqn:Hop; [left; congruence|].
  destruct (save_to_file pf fs res (lit "result.txt")) as [e|fs''] eqn:Hs;
    [left; congruence|].
  intros [= _ <- _]. right. exists (lit "3"), m1, m2, res.
  split_and!; try done. right; by right.
Qed.

Lemma main_writes_only_result_witness :
  let pf := Platform [LF] (λ _, None) in
  let fs : filesystem := λ _, None in
  snd (fst (main pf fs (Some (lit "1")))) = fs
  ∨ ∃ choice m1 m2 res,
      Some (lit "1") = Some choice
      ∧ __init__ fs (Some matrix1_path) 0 0 = inr m1
      ∧ __init__ fs (Some matrix2_path) 0 0 = inr m2
      ∧ (choice = lit "1" ∧ add m1 m2 = inr res
         ∨ choice = lit "2" ∧ subtract m1 m2 = inr res
         ∨ choice = lit "3" ∧ multiply m1 m2 = inr res)
      ∧ save_to_file pf fs res (lit "result.txt")
        = inr (snd (fst (main pf fs (Some (lit "1"))))).
Proof.
  intros pf fs.
  apply (main_writes_only_result pf fs (Some (lit "1"))
           (fst (fst (main pf fs (Some (lit "1")))))
           (snd (fst (main pf fs (Some (lit "1")))))
           (snd (main pf fs (Some (lit "1"))))).
  reflexivity.
Defined.
End program.
